(** * WordPress content generator: store, repository and pipeline

    A shallow embedding of the encrypted project store
    ([data/models.py], [data/storage.py], [utils/encryption.py]), the
    project repository ([core/project_manager.py]), the publishing client
    ([api/wordpress_api.py]) and the keyword pipeline
    ([core/content_processor.py], [gui/progress_window.py]), together with
    the properties the design document states about them. *)

From Stdlib Require Import Ascii String ZArith.
From stdpp Require Import gmap strings list fin_maps pretty.

Local Open Scope string_scope.
Local Open Scope list_scope.

(** ** Slugs

    [ContentProcessor._create_slug] and [WordPressAPI._sanitize_slug].
    A Python [str] is modelled as a list of 8-bit characters: the model
    covers ASCII keywords (a byte above 127 is left alone by [lower] and
    removed by the character-class filter). *)

Module Slug.

Abbreviation chars := (list ascii).

Definition in_range (lo hi : nat) (c : ascii) : bool :=
  (lo <=? nat_of_ascii c)%nat && (nat_of_ascii c <=? hi)%nat.

Definition is_upper (c : ascii) : bool := in_range 65 90 c.
Definition is_lower (c : ascii) : bool := in_range 97 122 c.
Definition is_digit (c : ascii) : bool := in_range 48 57 c.
Definition is_hyphen (c : ascii) : bool := Ascii.eqb c "-".

(** [str.lower()] on one ASCII character. *)
Definition lower_char (c : ascii) : ascii :=
  if is_upper c then ascii_of_nat (nat_of_ascii c + 32) else c.

Definition lower (s : chars) : chars := map lower_char s.

(** [s.replace(a, b)] for one-character [a] and [b]. *)
Definition replace (a b : ascii) (s : chars) : chars :=
  map (fun c => if Ascii.eqb c a then b else c) s.

(** Membership in the class [[a-z0-9\-]]. *)
Definition slug_char (c : ascii) : bool :=
  is_lower c || is_digit c || is_hyphen c.

(** [re.sub(r'[^a-z0-9\-]', '', s)]. *)
Definition remove_special (s : chars) : chars := filter (fun c => slug_char c = true) s.

(** [re.sub(r'-+', '-', s)]: of every run of hyphens only the last stays. *)
Fixpoint collapse_hyphens (s : chars) : chars :=
  match s with
  | [] => []
  | c :: s' =>
      match s' with
      | c' :: _ =>
          if is_hyphen c && is_hyphen c' then collapse_hyphens s'
          else c :: collapse_hyphens s'
      | [] => [c]
      end
  end.

Fixpoint lstrip (s : chars) : chars :=
  match s with
  | c :: s' => if is_hyphen c then lstrip s' else s
  | [] => []
  end.

Fixpoint rstrip (s : chars) : chars :=
  match s with
  | [] => []
  | c :: s' =>
      match rstrip s' with
      | [] => if is_hyphen c then [] else [c]
      | r => c :: r
      end
  end.

(** [s.strip('-')]. *)
Definition strip (s : chars) : chars := rstrip (lstrip s).

(** [ContentProcessor._create_slug], on character lists. *)
Definition create_slug_chars (keyword : chars) : chars :=
  let slug := lower keyword in
  let slug := replace " " "-" slug in
  let slug := remove_special slug in
  let slug := collapse_hyphens slug in
  let slug := strip slug in
  slug.

(** [WordPressAPI._sanitize_slug], on character lists. *)
Definition sanitize_slug_chars (slug : chars) : chars :=
  let slug := lower slug in
  let slug := replace "_" "-" (replace " " "-" slug) in
  let slug := remove_special slug in
  let slug := collapse_hyphens slug in
  let slug := strip slug in
  take 50 slug.

Definition _create_slug (keyword : string) : string :=
  string_of_list_ascii (create_slug_chars (list_ascii_of_string keyword)).

Definition _sanitize_slug (slug : string) : string :=
  string_of_list_ascii (sanitize_slug_chars (list_ascii_of_string slug)).

(** The slug that ends up in the request body: [process_single_keyword]
    passes [_create_slug keyword] to [create_post], which stores
    [_sanitize_slug slug] under ['slug']. *)
Definition posted_slug (keyword : string) : string :=
  _sanitize_slug (_create_slug keyword).




(** A character list in sanitised form: only slug characters, no two
    hyphens in a row, no hyphen at either end. *)
Fixpoint no_double_hyphen (s : chars) : bool :=
  match s with
  | c :: s' =>
      match s' with
      | c' :: _ => negb (is_hyphen c && is_hyphen c') && no_double_hyphen s'
      | [] => true
      end
  | [] => true
  end.

Definition starts_clean (s : chars) : bool :=
  match s with c :: _ => negb (is_hyphen c) | [] => true end.

Definition ends_clean (s : chars) : bool :=
  match last s with Some c => negb (is_hyphen c) | None => true end.

End Slug.

(** ** Project records

    [data/models.py]. A record has the field types the dataclass
    declares. A dictionary (what [asdict] returns and what the stored
    document holds) maps field names to JSON values; the values the model
    knows are [None], integers, strings and lists of strings. *)

Module Models.

Inductive value :=
  | VNone
  | VInt (n : Z)
  | VStr (s : string)
  | VStrs (l : list string).

#[global] Instance value_eq_dec : EqDecision value.
Proof. solve_decision. Defined.

(** [datetime.now().isoformat()]: the reading the clock gives at its
    [t]-th consultation. *)
Class Clock := isoformat_now : nat -> string.

Record WordPressProject := {
  id : string;
  name : string;
  website_url : string;
  username : string;
  app_password : string;
  category_id : Z;
  status : string;
  keywords : list string;
  prompt_template : string;
  ai_api_key : string;
  ai_provider_type : string;
  created_at : string;
  updated_at : string
}.

#[global] Instance WordPressProject_eq_dec : EqDecision WordPressProject.
Proof. solve_decision. Defined.

Definition field_names : list string :=
  ["id"; "name"; "website_url"; "username"; "app_password"; "category_id";
   "status"; "keywords"; "prompt_template"; "ai_api_key"; "ai_provider_type";
   "created_at"; "updated_at"].

(** The generated [__init__] followed by [__post_init__]: [created_at] is
    taken from the clock only when it is [None], [updated_at] always.
    [t] counts the clock readings made so far. *)
Definition __init__ `{Clock}
    (id name website_url username app_password : string) (category_id : Z)
    (status : string) (keywords : list string)
    (prompt_template ai_api_key ai_provider_type : string)
    (created_at updated_at : option string) (t : nat) : WordPressProject * nat :=
  let '(created_at, t) :=
    match created_at with
    | None => (isoformat_now t, S t)
    | Some c => (c, t)
    end in
  let '(updated_at, t) := (isoformat_now t, S t) in
  ({| id := id; name := name; website_url := website_url; username := username;
      app_password := app_password; category_id := category_id; status := status;
      keywords := keywords; prompt_template := prompt_template;
      ai_api_key := ai_api_key; ai_provider_type := ai_provider_type;
      created_at := created_at; updated_at := updated_at |}, t).

(** [to_dict], that is [asdict(self)]. *)
Definition to_dict (p : WordPressProject) : gmap string value :=
  list_to_map
    [("id", VStr (id p)); ("name", VStr (name p));
     ("website_url", VStr (website_url p)); ("username", VStr (username p));
     ("app_password", VStr (app_password p)); ("category_id", VInt (category_id p));
     ("status", VStr (status p)); ("keywords", VStrs (keywords p));
     ("prompt_template", VStr (prompt_template p));
     ("ai_api_key", VStr (ai_api_key p));
     ("ai_provider_type", VStr (ai_provider_type p));
     ("created_at", VStr (created_at p)); ("updated_at", VStr (updated_at p))].

(** Reading a keyword argument of a given field type. The dataclass does
    no run-time type check; a dictionary whose value does not have the
    declared type of its field lies outside the typed records, and the
    model rejects it as it rejects a missing argument. *)
Definition str_arg (data : gmap string value) (k : string) : option string :=
  match data !! k with Some (VStr s) => Some s | _ => None end.

Definition int_arg (data : gmap string value) (k : string) : option Z :=
  match data !! k with Some (VInt n) => Some n | _ => None end.

Definition strs_arg (data : gmap string value) (k : string) : option (list string) :=
  match data !! k with Some (VStrs l) => Some l | _ => None end.

(** An argument declared [str = None]. *)
Definition opt_str_arg (data : gmap string value) (k : string) : option (option string) :=
  match data !! k with
  | None | Some VNone => Some None
  | Some (VStr s) => Some (Some s)
  | Some _ => None
  end.

(** [from_dict], the class called with the dictionary's entries as
    keyword arguments: a keyword that is no field, or a
    missing field without default, raises [TypeError] ([None] here, and
    then the clock is not read). *)
Definition from_dict `{Clock} (data : gmap string value) (t : nat)
    : option (WordPressProject * nat) :=
  if bool_decide (dom data ⊆ list_to_set field_names) then
    id ← str_arg data "id";
    name ← str_arg data "name";
    website_url ← str_arg data "website_url";
    username ← str_arg data "username";
    app_password ← str_arg data "app_password";
    category_id ← int_arg data "category_id";
    status ← str_arg data "status";
    keywords ← strs_arg data "keywords";
    prompt_template ← str_arg data "prompt_template";
    ai_api_key ← str_arg data "ai_api_key";
    ai_provider_type ←
      match data !! "ai_provider_type" with
      | None => Some "gemini"
      | Some (VStr s) => Some s
      | Some _ => None
      end;
    created_at ← opt_str_arg data "created_at";
    updated_at ← opt_str_arg data "updated_at";
    Some (__init__ id name website_url username app_password category_id status
            keywords prompt_template ai_api_key ai_provider_type
            created_at updated_at t)
  else None.

End Models.

(** ** Encryption

    [utils/encryption.py]. Fernet with its base64 and UTF-8 wrapping is an
    opaque pair of functions; [r] names the randomness (initialisation
    vector and timestamp) a token is made with. *)

Module Encryption.
Import Models.

Class Fernet := {
  token_encrypt : nat -> string -> string;
  token_decrypt : string -> option string
}.

(** What the properties below ask of the cipher: a token made with the
    key opens to its plaintext, and no token is the empty string. *)
Definition fernet_sound `{Fernet} : Prop :=
  forall r s, token_decrypt (token_encrypt r s) = Some s /\ token_encrypt r s <> "".

(** Python's truth value of a JSON value ([not data]). *)
Definition truthy (v : value) : bool :=
  match v with
  | VNone => false
  | VInt n => negb (n =? 0)%Z
  | VStr s => negb (String.eqb s "")
  | VStrs l => negb (bool_decide (l = []))
  end.

(** [EncryptionManager.encrypt]; [r] counts the tokens made so far. *)
Definition encrypt `{Fernet} (data : string) (r : nat) : string * nat :=
  if negb (truthy (VStr data)) then ("", r)
  else (token_encrypt r data, S r).

(** [EncryptionManager.decrypt]; [None] when it raises (a value that is
    not a string has no [encode]; a token that does not verify). *)
Definition decrypt `{Fernet} (encrypted_data : value) : option string :=
  if negb (truthy encrypted_data) then Some ""
  else match encrypted_data with
       | VStr s => token_decrypt s
       | _ => None
       end.

End Encryption.

(** ** The store

    [data/storage.py]. The data directory holds the document
    [projects.json] and, while a save runs, [projects.json.tmp]. The text
    [json.dump] writes and [json.load] reads back is identified with the
    document it denotes; a file that holds only the beginning of that text
    is [Partial], and [json.load] raises on it. *)

Module DataStorage.
Import Models Encryption.

Inductive exn :=
  | PermissionError
  | ValueError (msg : string).

Record document := {
  version : string;
  projects : list (gmap string value)
}.

Inductive content :=
  | Complete (doc : document)
  | Partial (doc : document) (written : nat).

(** The directory and the two counters the store consumes: tokens made
    ([draws]) and clock readings ([ticks]). [writable] is what
    [test_write_permission] finds. *)
Record Env := {
  writable : bool;
  projects_file : option content;
  temp_file : option content;
  draws : nat;
  ticks : nat
}.

Definition set_files (e : Env) (target temp : option content) : Env :=
  {| writable := writable e; projects_file := target; temp_file := temp;
     draws := draws e; ticks := ticks e |}.

Definition set_draws (e : Env) (r : nat) : Env :=
  {| writable := writable e; projects_file := projects_file e;
     temp_file := temp_file e; draws := r; ticks := ticks e |}.

Definition set_ticks (e : Env) (t : nat) : Env :=
  {| writable := writable e; projects_file := projects_file e;
     temp_file := temp_file e; draws := draws e; ticks := t |}.

(** One turn of the loop of [save_projects]: the dictionary of a project
    with both sensitive fields encrypted. *)
Definition encrypted_dict `{Fernet} (project : WordPressProject) (r : nat)
    : gmap string value * nat :=
  let project_dict := to_dict project in
  let '(c, r) := encrypt (app_password project) r in
  let project_dict := <["app_password" := VStr c]> project_dict in
  let '(c, r) := encrypt (ai_api_key project) r in
  let project_dict := <["ai_api_key" := VStr c]> project_dict in
  (project_dict, r).

Fixpoint projects_data `{Fernet} (projects : list WordPressProject) (r : nat)
    : list (gmap string value) * nat :=
  match projects with
  | [] => ([], r)
  | project :: rest =>
      let '(project_dict, r) := encrypted_dict project r in
      let '(data, r) := projects_data rest r in
      (project_dict :: data, r)
  end.

Definition new_document (data : list (gmap string value)) : document :=
  {| version := "1.0"; projects := data |}.

(** [os.remove(self.projects_file)] when the document exists. *)
Definition remove_existing (e : Env) : Env :=
  set_files e None (temp_file e).

(** [os.rename(temp_file, self.projects_file)]. *)
Definition rename_temp (e : Env) : Env :=
  set_files e (temp_file e) None.

(** [DataStorage.save_projects], run to its end. *)
Definition save_projects `{Fernet} (projects : list WordPressProject) (e : Env)
    : (exn + unit) * Env :=
  if negb (writable e) then (inl PermissionError, e)
  else
    let '(data, r) := projects_data projects (draws e) in
    let e := set_draws e r in
    let e := set_files e (projects_file e) (Some (Complete (new_document data))) in
    let e := match projects_file e with Some _ => remove_existing e | None => e end in
    let e := rename_temp e in
    (inr tt, e).

(** The same save, one file-system operation at a time. The state is the
    point the save has reached together with the directory; a crash
    leaves the directory as it is at that point, and a concurrent reader
    sees it as it is at that point. *)
Inductive save_point :=
  | Encrypted            (* the dictionaries are ready, nothing is written *)
  | Writing (n : nat)    (* the temporary file is open, [n] pieces written *)
  | Written              (* the temporary file is complete and closed *)
  | Removed              (* past the [os.path.exists] / [os.remove] lines *)
  | Renamed.             (* past [os.rename] *)

Inductive save_step (new : document) : save_point * Env -> save_point * Env -> Prop :=
  | step_open e :
      save_step new (Encrypted, e)
        (Writing 0, set_files e (projects_file e) (Some (Partial new 0)))
  | step_write n e :
      save_step new (Writing n, e)
        (Writing (S n), set_files e (projects_file e) (Some (Partial new (S n))))
  | step_close n e :
      save_step new (Writing n, e)
        (Written, set_files e (projects_file e) (Some (Complete new)))
  | step_remove e :
      save_step new (Written, e)
        (Removed, match projects_file e with Some _ => remove_existing e | None => e end)
  | step_rename e :
      save_step new (Removed, e) (Renamed, rename_temp e).

(** The states a save passes through. *)
Definition save_reaches (new : document) : save_point * Env -> save_point * Env -> Prop :=
  rtc (save_step new).

(** The body of the loop of [load_projects] for one stored dictionary;
    [None] when the [try] block raises and the record is skipped. *)
Definition load_one `{Fernet} `{Clock} (project_dict : gmap string value) (t : nat)
    : option (WordPressProject * nat) :=
  c ← project_dict !! "app_password";
  plain ← decrypt c;
  let project_dict := <["app_password" := VStr plain]> project_dict in
  c ← project_dict !! "ai_api_key";
  plain ← decrypt c;
  let project_dict := <["ai_api_key" := VStr plain]> project_dict in
  from_dict project_dict t.

Fixpoint load_loop `{Fernet} `{Clock} (data : list (gmap string value))
    (projects : list WordPressProject) (t : nat) : list WordPressProject * nat :=
  match data with
  | [] => (projects, t)
  | project_dict :: rest =>
      match load_one project_dict t with
      | Some (project, t) => load_loop rest (projects ++ [project]) t
      | None => load_loop rest projects t
      end
  end.

(** [DataStorage.load_projects]. *)
Definition load_projects `{Fernet} `{Clock} (e : Env) : list WordPressProject * Env :=
  match projects_file e with
  | None => ([], e)
  | Some (Partial _ _) => ([], e)
  | Some (Complete data) =>
      let '(projects, t) := load_loop (projects data) [] (ticks e) in
      (projects, set_ticks e t)
  end.

End DataStorage.

(** ** The repository

    [core/project_manager.py]. *)

Module ProjectManager.
Import Models Encryption.
Import DataStorage (exn, PermissionError, ValueError, Env).

Record ProjectManager := {
  storage : Env;
  projects : list WordPressProject
}.

(** What a call does: it returns a boolean or it raises. *)
Inductive outcome :=
  | Returns (b : bool)
  | Raises (e : exn).

Definition set_id (p : WordPressProject) (project_id : string) : WordPressProject :=
  {| id := project_id; name := name p; website_url := website_url p;
     username := username p; app_password := app_password p;
     category_id := category_id p; status := status p; keywords := keywords p;
     prompt_template := prompt_template p; ai_api_key := ai_api_key p;
     ai_provider_type := ai_provider_type p; created_at := created_at p;
     updated_at := updated_at p |}.

(** [ProjectManager.save_projects]: an exception of the store becomes
    [False]. *)
Definition save_projects `{Fernet} (pm : ProjectManager) : bool * ProjectManager :=
  match DataStorage.save_projects (projects pm) (storage pm) with
  | (inr _, e) => (true, {| storage := e; projects := projects pm |})
  | (inl _, e) => (false, {| storage := e; projects := projects pm |})
  end.

Definition load_projects `{Fernet} `{Clock} (pm : ProjectManager)
    : list WordPressProject * ProjectManager :=
  let '(ps, e) := DataStorage.load_projects (storage pm) in
  (ps, {| storage := e; projects := ps |}).

Definition add_project `{Fernet} (project : WordPressProject) (pm : ProjectManager)
    : outcome * ProjectManager :=
  if bool_decide (Exists (fun p => name p = name project) (projects pm)) then
    (Raises (ValueError "Project with this name already exists"), pm)
  else
    let pm := {| storage := storage pm; projects := projects pm ++ [project] |} in
    let '(success, pm) := save_projects pm in
    if success then (Returns true, pm) else (Returns false, pm).

Definition update_project `{Fernet} (project_id : string)
    (updated_project : WordPressProject) (pm : ProjectManager)
    : outcome * ProjectManager :=
  match list_find (fun project => id project = project_id) (projects pm) with
  | Some (i, _) =>
      let updated_project := set_id updated_project project_id in
      let pm := {| storage := storage pm;
                   projects := <[i := updated_project]> (projects pm) |} in
      let '(_, pm) := save_projects pm in
      (Returns true, pm)
  | None => (Raises (ValueError "Project not found"), pm)
  end.

Definition delete_project `{Fernet} (project_id : string) (pm : ProjectManager)
    : outcome * ProjectManager :=
  match list_find (fun project => id project = project_id) (projects pm) with
  | Some (i, _) =>
      let pm := {| storage := storage pm; projects := delete i (projects pm) |} in
      let '(_, pm) := save_projects pm in
      (Returns true, pm)
  | None => (Raises (ValueError "Project not found"), pm)
  end.

Definition get_project (project_id : string) (pm : ProjectManager)
    : option WordPressProject :=
  snd <$> list_find (fun project => id project = project_id) (projects pm).

Definition get_project_by_name (n : string) (pm : ProjectManager)
    : option WordPressProject :=
  snd <$> list_find (fun project => name project = n) (projects pm).

(** The calls a client can make on the repository. *)
Inductive call :=
  | Add (project : WordPressProject)
  | Update (project_id : string) (updated_project : WordPressProject)
  | Delete (project_id : string).

Definition run_call `{Fernet} (c : call) (pm : ProjectManager) : outcome * ProjectManager :=
  match c with
  | Add project => add_project project pm
  | Update project_id updated_project => update_project project_id updated_project pm
  | Delete project_id => delete_project project_id pm
  end.

Fixpoint run_calls `{Fernet} (cs : list call) (pm : ProjectManager) : ProjectManager :=
  match cs with
  | [] => pm
  | c :: cs => run_calls cs (snd (run_call c pm))
  end.

(** The dictionary a stored dictionary stands for: both sensitive fields
    opened again. *)
Definition opened_dict `{Fernet} (d : gmap string value) : option (gmap string value) :=
  c ← d !! "app_password";
  plain ← decrypt c;
  let d := <["app_password" := VStr plain]> d in
  c ← d !! "ai_api_key";
  plain ← decrypt c;
  Some (<["ai_api_key" := VStr plain]> d).

(** The in-memory collection and the durable document have the same
    contents: the document is complete and its dictionaries, once
    opened, are those of the projects in memory, in order. *)
Definition consistent `{Fernet} (pm : ProjectManager) : Prop :=
  exists doc,
    DataStorage.projects_file (storage pm) = Some (DataStorage.Complete doc) /\
    mapM opened_dict (DataStorage.projects doc) = Some (to_dict <$> projects pm).

End ProjectManager.

(** ** Notions the properties of the store are stated with *)

Module StoreNotions.
Import Models Encryption DataStorage.

(** What a reader finds at the document path is one of the two complete
    documents of a save: the one present before it or the one it writes. *)
Definition old_or_new (old new : document) (e : Env) : Prop :=
  projects_file e = Some (Complete old) \/ projects_file e = Some (Complete new).

(** The record with another [updated_at]. *)
Definition set_updated_at (p : WordPressProject) (u : string) : WordPressProject :=
  {| id := id p; name := name p; website_url := website_url p;
     username := username p; app_password := app_password p;
     category_id := category_id p; status := status p; keywords := keywords p;
     prompt_template := prompt_template p; ai_api_key := ai_api_key p;
     ai_provider_type := ai_provider_type p; created_at := created_at p;
     updated_at := u |}.

(** The loop of [load_projects] without its accumulator. *)
Fixpoint loaded `{Fernet} `{Clock} (data : list (gmap string value)) (t : nat)
    : list WordPressProject * nat :=
  match data with
  | [] => ([], t)
  | project_dict :: rest =>
      match load_one project_dict t with
      | Some (project, t) =>
          let '(projects, t) := loaded rest t in (project :: projects, t)
      | None => loaded rest t
      end
  end.

(** Decryption of both sensitive fields and construction succeed on this
    dictionary. *)
Definition loadable `{Fernet} `{Clock} (project_dict : gmap string value) : Prop :=
  is_Some (load_one project_dict 0).

#[export] Instance loadable_dec `{Fernet} `{Clock} d : Decision (loadable d).
Proof. unfold loadable. apply _. Defined.


(** The projects as a load that starts at clock reading [t] returns them
    after a save: each with the reading made at its construction. *)
Definition stamped `{Clock} (projects : list WordPressProject) (t : nat)
    : list WordPressProject :=
  imap (fun i p => set_updated_at p (isoformat_now (t + i))) projects.

(** The directory with another list of stored dictionaries. *)
Definition with_projects (e : Env) (data : list (gmap string value)) : Env :=
  set_files e (Some (Complete (new_document data))) (temp_file e).



(** Where the document path and the temporary path stand at each point
    of a save that started on a directory whose document was [target]. *)
Definition save_inv (target : option content) (new : document)
    (s : save_point * Env) : Prop :=
  match s.1 with
  | Encrypted => projects_file s.2 = target
  | Writing n => projects_file s.2 = target /\ temp_file s.2 = Some (Partial new n)
  | Written => projects_file s.2 = target /\ temp_file s.2 = Some (Complete new)
  | Removed => projects_file s.2 = None /\ temp_file s.2 = Some (Complete new)
  | Renamed => projects_file s.2 = Some (Complete new) /\ temp_file s.2 = None
  end.

End StoreNotions.

(** ** A cipher and a clock to run the model on

    A token is its plaintext behind a marker; the clock reads its own
    count. *)

Module Toy.
Import Models Encryption DataStorage StoreNotions.

Definition toy_decrypt (token : string) : option string :=
  match token with
  | String "#" s => Some s
  | _ => None
  end.

#[export] Instance toy_fernet : Fernet :=
  {| token_encrypt := fun _ s => String "#" s; token_decrypt := toy_decrypt |}.

#[export] Instance toy_clock : Clock := fun t => "T" +:+ pretty t.

Definition project (i n : string) (kws : list string) : WordPressProject :=
  {| id := i; name := n; website_url := "https://example.org"; username := "u";
     app_password := "secret"; category_id := 1; status := "draft";
     keywords := kws; prompt_template := "Write about <keyword>";
     ai_api_key := "key"; ai_provider_type := "gemini";
     created_at := "T0"; updated_at := "T1" |}.

Definition directory : Env :=
  {| writable := true; projects_file := None; temp_file := None;
     draws := 0; ticks := 5 |}.

Definition two_projects : list WordPressProject :=
  [project "1" "a" ["k1"; "k2"]; project "2" "b" ["k3"]].

(** A stored dictionary whose password token was cut short. *)
Definition truncated_dict : gmap string value :=
  <["app_password" := VStr "secre"]> (to_dict (project "3" "c" ["k4"])).

Definition damaged_data : list (gmap string value) :=
  [(encrypted_dict (project "1" "a" ["k1"; "k2"]) 0).1; truncated_dict;
   (encrypted_dict (project "2" "b" ["k3"]) 2).1].

Definition damaged_directory : Env := with_projects directory damaged_data.

End Toy.

Module ToyRepository.
Import Models Encryption DataStorage StoreNotions Toy ProjectManager.

(** The directory after [two_projects] were saved, and the same
    directory once it has become read-only. *)
Definition saved_directory : Env := (DataStorage.save_projects two_projects directory).2.

Definition locked_directory : Env :=
  {| writable := false; projects_file := projects_file saved_directory;
     temp_file := temp_file saved_directory; draws := draws saved_directory;
     ticks := ticks saved_directory |}.

Definition repository : ProjectManager :=
  {| storage := saved_directory; projects := two_projects |}.

Definition locked_repository : ProjectManager :=
  {| storage := locked_directory; projects := two_projects |}.
End ToyRepository.

(** ** The publishing client

    [api/wordpress_api.py]. The HTTP session is an oracle on a state of
    the outside world. *)

Module WordPressAPI.
Import Slug.

(** What [session.post] hands back: [json] is what [response.json()]
    returns, or the text of the exception it raises. *)
Record Response := {
  status_code : Z;
  text : string;
  json : string + gmap string Models.value
}.

Inductive post_outcome :=
  | Responded (response : Response)
  | Timeout                        (* [requests.exceptions.Timeout] *)
  | ConnectionError                (* [requests.exceptions.ConnectionError] *)
  | OtherError (msg : string).     (* any other exception, with its [str] *)

Record PostData := {
  pd_title : string;
  pd_content : string;
  pd_slug : string;
  pd_categories : list Z;
  pd_status : string
}.

Class Session (World : Type) :=
  session_post : string -> PostData -> World -> post_outcome * World.

(** The dictionary [create_post] returns. *)
Inductive wp_result :=
  | Created (post_id post_url slug : Models.value)
  | Failure (error : string).

Definition wp_success (r : wp_result) : bool :=
  match r with Created _ _ _ => true | Failure _ => false end.

(** [str(KeyError(k))]. *)
Definition key_error (k : string) : string := "'" +:+ k +:+ "'".

Definition create_post `{Session World} (website_url : string)
    (title content slug : string) (category_id : Z) (status : string)
    (w : World) : wp_result * World :=
  let url := website_url +:+ "/wp-json/wp/v2/posts" in
  let post_data :=
    {| pd_title := title; pd_content := content; pd_slug := _sanitize_slug slug;
       pd_categories := [category_id]; pd_status := status |} in
  match session_post url post_data w with
  | (Responded response, w) =>
      if bool_decide (status_code response = 201%Z) then
        match json response with
        | inr post_info =>
            match post_info !! "id", post_info !! "link", post_info !! "slug" with
            | Some post_id, Some link, Some slug => (Created post_id link slug, w)
            | None, _, _ => (Failure ("Unexpected error: " +:+ key_error "id"), w)
            | _, None, _ => (Failure ("Unexpected error: " +:+ key_error "link"), w)
            | _, _, None => (Failure ("Unexpected error: " +:+ key_error "slug"), w)
            end
        | inl e => (Failure ("Unexpected error: " +:+ e), w)
        end
      else
        (Failure ("HTTP " +:+ pretty (status_code response) +:+ ": " +:+ text response), w)
  | (Timeout, w) => (Failure "Request timeout", w)
  | (ConnectionError, w) => (Failure "Connection error", w)
  | (OtherError e, w) => (Failure ("Unexpected error: " +:+ e), w)
  end.

(** [website_url.rstrip('/')], as [WordPressAPI.__init__] stores it. *)
Fixpoint rstrip_slash (s : string) : string :=
  match s with
  | EmptyString => EmptyString
  | String c s' =>
      match rstrip_slash s' with
      | EmptyString => if Ascii.eqb c "/" then EmptyString else String c EmptyString
      | r => String c r
      end
  end.

(** The reading of the interface contract: every status from 200 to 299
    is a success. *)
Definition is_2xx (status : Z) : bool := (200 <=? status)%Z && (status <=? 299)%Z.

End WordPressAPI.

(** ** The keyword pipeline

    [core/content_processor.py]. The generation service, the HTTP
    session, the wall clock and [time.sleep] act on the outside world. *)

Module ContentProcessor.
Import Slug Models WordPressAPI.

Record ProcessingResult := {
  keyword : string;
  success : bool;
  title : string;
  post_id : value;
  post_url : value;
  error_message : string;
  processing_time : Z
}.

Class Services (World : Type) := {
  (* [GeminiProvider.generate_content]: title and content, or the text of
     the exception it raises *)
  generate_content : string -> World -> (string + string * string) * World;
  services_session :: Session World;
  (* [time.time()], in clock units *)
  time_time : World -> Z * World;
  time_sleep : Z -> World -> World
}.

(** [s.replace(old, new)] for a non-empty [old]; [skip] counts the
    characters of a replaced occurrence still to pass over. *)
Fixpoint replace_from (old new s : string) (skip : nat) : string :=
  match s with
  | EmptyString => EmptyString
  | String c s' =>
      match skip with
      | S k => replace_from old new s' k
      | 0 =>
          if String.prefix old s
          then new +:+ replace_from old new s' (String.length old - 1)
          else String c (replace_from old new s' 0)
      end
  end.

Definition str_replace (old new s : string) : string := replace_from old new s 0.

(** [ProcessingResult(keyword=..., success=False, error_message=...)]. *)
Definition failed_result (keyword title error : string) (elapsed : Z) : ProcessingResult :=
  {| keyword := keyword; success := false; title := title; post_id := VNone;
     post_url := VStr ""; error_message := error; processing_time := elapsed |}.

Definition process_single_keyword `{Services World} (project : WordPressProject)
    (keyword : string) (w : World) : ProcessingResult * World :=
  let '(start_time, w) := time_time w in
  let prompt := str_replace "<keyword>" keyword (prompt_template project) in
  match generate_content prompt w with
  | (inr (title, content), w) =>
      let slug := _create_slug keyword in
      let '(wp_result, w) :=
        create_post (rstrip_slash (website_url project)) title content slug
          (category_id project) (status project) w in
      let '(now, w) := time_time w in
      let processing_time := (now - start_time)%Z in
      match wp_result with
      | Created post_id post_url _ =>
          ({| keyword := keyword; success := true; title := title;
              post_id := post_id; post_url := post_url; error_message := "";
              processing_time := processing_time |}, w)
      | Failure error => (failed_result keyword title error processing_time, w)
      end
  | (inl e, w) =>
      let '(now, w) := time_time w in
      (failed_result keyword "" e (now - start_time)%Z, w)
  end.

(** The progress sink: it may raise, with the text of its exception. *)
Definition callback (World : Type) : Type :=
  nat -> nat -> string -> World -> option string * World.

Definition notify {World} (progress_callback : option (callback World))
    (index total : nat) (message : string) (w : World) : option string * World :=
  match progress_callback with
  | Some f => f index total message w
  | None => (None, w)
  end.

(** The [for] loop of [process_all_keywords], from iteration [index] on. *)
Fixpoint process_loop `{Services World} (project : WordPressProject)
    (progress_callback : option (callback World)) (total_keywords index : nat)
    (remaining : list string) (results : list ProcessingResult) (w : World)
    : list ProcessingResult * World :=
  match remaining with
  | [] => (results, w)
  | keyword :: remaining =>
      match notify progress_callback index total_keywords ("Processing: " +:+ keyword) w with
      | (None, w) =>
          let '(result, w) := process_single_keyword project keyword w in
          let results := results ++ [result] in
          let w := if (index <? total_keywords - 1)%nat then time_sleep 5 w else w in
          process_loop project progress_callback total_keywords (S index)
            remaining results w
      | (Some e, w) =>
          let error_msg := "Unexpected error processing " +:+ keyword +:+ ": " +:+ e in
          process_loop project progress_callback total_keywords (S index)
            remaining (results ++ [failed_result keyword "" error_msg 0]) w
      end
  end.


End ContentProcessor.

(** ** The run window

    [gui/progress_window.py], [process_keywords]: the worker thread, one
    call or test at a time, next to the interface thread, which may set
    [is_cancelled] between any two of them. *)

Module ProgressWindow.
Import Slug Models WordPressAPI ContentProcessor.

(** Where a run ends. *)
Inductive run_state :=
  | Completed     (* [processing_complete] was scheduled *)
  | Cancelled     (* [processing_cancelled] was scheduled *)
  | Failed.       (* [processing_failed] was scheduled *)

(** The point the worker has reached. *)
Inductive point :=
  | Setup                                   (* before [ContentProcessor(self.project)] *)
  | LoopHead (index : nat)                  (* top of iteration [index] *)
  | Generating (index : nat) (start_time : Z)
                                            (* [generate_content] is in flight *)
  | Publishing (index : nat) (start_time : Z) (title content : string)
                                            (* [create_post] is in flight *)
  | Recorded (index : nat)                  (* the result is appended *)
  | Sleeping (index : nat)                  (* inside [time.sleep(5)] *)
  | LoopExit                                (* past the loop *)
  | Done (final : run_state).

Record Window (World : Type) := {
  at_point : point;
  results : list ProcessingResult;
  is_cancelled : bool;
  world : World
}.
Arguments at_point {World}.
Arguments results {World}.
Arguments is_cancelled {World}.
Arguments world {World}.

Definition move {World} (s : Window World) (p : point) (w : World) : Window World :=
  {| at_point := p; results := results s; is_cancelled := is_cancelled s; world := w |}.

Definition record {World} (s : Window World) (p : point) (r : ProcessingResult)
    (w : World) : Window World :=
  {| at_point := p; results := results s ++ [r]; is_cancelled := is_cancelled s;
     world := w |}.

(** What the interface thread does on Cancel, or on closing the window. *)
Definition cancel {World} (s : Window World) : Window World :=
  {| at_point := at_point s; results := results s; is_cancelled := true;
     world := world s |}.

(** Construction of the processor: it configures the generation service,
    which may raise. *)
Class Setup_ (World : Type) := new_processor : WordPressProject -> World -> bool * World.

(** One step of the worker. *)
Definition worker_step `{Services World} `{Setup_ World} (project : WordPressProject)
    (s : Window World) : option (Window World) :=
  let total_keywords := length (keywords project) in
  match at_point s with
  | Setup =>
      match new_processor project (world s) with
      | (true, w) => Some (move s (LoopHead 0) w)
      | (false, w) => Some (move s (Done Failed) w)
      end
  | LoopHead index =>
      match keywords project !! index with
      | None => Some (move s LoopExit (world s))
      | Some keyword =>
          if is_cancelled s then Some (move s LoopExit (world s))
          else
            let '(start_time, w) := time_time (world s) in
            Some (move s (Generating index start_time) w)
      end
  | Generating index start_time =>
      match keywords project !! index with
      | None => None
      | Some keyword =>
          let prompt := str_replace "<keyword>" keyword (prompt_template project) in
          match generate_content prompt (world s) with
          | (inr (title, content), w) =>
              Some (move s (Publishing index start_time title content) w)
          | (inl e, w) =>
              let '(now, w) := time_time w in
              Some (record s (Recorded index)
                      (failed_result keyword "" e (now - start_time)%Z) w)
          end
      end
  | Publishing index start_time title content =>
      match keywords project !! index with
      | None => None
      | Some keyword =>
          let slug := _create_slug keyword in
          let '(wp_result, w) :=
            create_post (rstrip_slash (website_url project)) title content slug
              (category_id project) (status project) (world s) in
          let '(now, w) := time_time w in
          let processing_time := (now - start_time)%Z in
          match wp_result with
          | Created post_id post_url _ =>
              Some (record s (Recorded index)
                      {| keyword := keyword; success := true; title := title;
                         post_id := post_id; post_url := post_url;
                         error_message := ""; processing_time := processing_time |} w)
          | Failure error =>
              Some (record s (Recorded index)
                      (failed_result keyword title error processing_time) w)
          end
      end
  | Recorded index =>
      if (index <? total_keywords - 1)%nat && negb (is_cancelled s)
      then Some (move s (Sleeping index) (world s))
      else Some (move s (LoopHead (S index)) (world s))
  | Sleeping index => Some (move s (LoopHead (S index)) (time_sleep 5 (world s)))
  | LoopExit =>
      if negb (is_cancelled s) then Some (move s (Done Completed) (world s))
      else Some (move s (Done Cancelled) (world s))
  | Done _ => None
  end.

(** A step of the whole: the worker moves, or the interface thread sets
    the flag. *)
Inductive step `{Services World} `{Setup_ World} (project : WordPressProject)
    : Window World -> Window World -> Prop :=
  | step_worker s s' : worker_step project s = Some s' -> step project s s'
  | step_cancel s : step project s (cancel s).

(** [start_processing]. *)
Definition start {World} (w : World) : Window World :=
  {| at_point := Setup; results := []; is_cancelled := false; world := w |}.

(** A call to a collaborator is in flight. *)
Definition in_flight (p : point) : bool :=
  match p with
  | Generating _ _ | Publishing _ _ _ _ => true
  | _ => false
  end.

(** The worker alone, for at most [fuel] steps. *)
Fixpoint run `{Services World} `{Setup_ World} (project : WordPressProject)
    (fuel : nat) (s : Window World) : Window World :=
  match fuel with
  | 0 => s
  | S fuel =>
      match worker_step project s with
      | Some s' => run project fuel s'
      | None => s
      end
  end.

End ProgressWindow.

Module PipelineNotions.
Import Slug Models WordPressAPI ContentProcessor.

End PipelineNotions.

Module ToyServices.
Import Slug Models WordPressAPI ContentProcessor ProgressWindow Toy.

(** A session that answers every request with status 200. *)
Definition ok_session : Session unit :=
  fun _ data w =>
    (Responded {| status_code := 200; text := "done";
                  json := inr {[ "id" := VInt 7; "link" := VStr "https://example.org/p";
                                 "slug" := VStr (pd_slug data) ]} |}, w).

(** Services on a world that is a clock: generation fails on the keyword
    "k2", publishing answers 201 with a post. *)
Definition toy_session : Session nat :=
  fun _ data w =>
    (Responded {| status_code := 201; text := "";
                  json := inr {[ "id" := VInt 7; "link" := VStr "https://example.org/p";
                                 "slug" := VStr (pd_slug data) ]} |}, w).

#[export] Instance toy_services : Services nat :=
  {| generate_content := fun prompt w =>
       if String.eqb prompt "Write about k2"
       then (inl "Gemini API error: Empty response from Gemini API", w)
       else (inr ("On " +:+ prompt, "<p>text</p>"), w);
     services_session := toy_session;
     time_time := fun w => (Z.of_nat w, S w);
     time_sleep := fun n w => w + Z.to_nat n |}.

#[export] Instance toy_setup : Setup_ nat := fun _ w => (true, w).

Definition three_keywords : WordPressProject := project "1" "a" ["k1"; "k2"; "k3"].
End ToyServices.

Module WindowNotions.
Import Slug Models WordPressAPI ContentProcessor ProgressWindow.

(** The worker alone while a call is in flight, for at most [fuel]
    steps. *)
Fixpoint finish_call `{Services World} `{Setup_ World} (project : WordPressProject)
    (fuel : nat) (s : Window World) : Window World :=
  match fuel with
  | 0 => s
  | S fuel =>
      if in_flight (at_point s) then
        match worker_step project s with
        | Some s' => finish_call project fuel s'
        | None => s
        end
      else s
  end.

(** What holds of every state after a cancellation during the delay that
    follows outcome number [index]: the flag stays set, no result is
    added, and the worker is on its way out of the loop. *)
Definition winding_down `{Services World} (index : nat)
    (s0 s : Window World) : Prop :=
  is_cancelled s = true /\ results s = results s0 /\
  ((at_point s = Sleeping index /\ world s = world s0) \/
   (at_point s = LoopHead (S index) /\ world s = time_sleep 5 (world s0)) \/
   (at_point s = LoopExit /\ world s = time_sleep 5 (world s0)) \/
   (at_point s = Done Cancelled /\ world s = time_sleep 5 (world s0))).
End WindowNotions.

Module SlugNotions.
Import Slug.
(** An ASCII letter or digit. *)
Definition is_alnum (c : ascii) : bool := is_upper c || is_lower c || is_digit c.
End SlugNotions.

Module ToySave.
Import Models Encryption DataStorage StoreNotions Toy.

(** A save of the empty list over [damaged_directory], stopped while the
    temporary file is being written. *)
Definition half_written : save_point * Env :=
  (Writing 1, set_files damaged_directory (projects_file damaged_directory)
                (Some (Partial (new_document []) 1))).
End ToySave.

Module RepositoryNotions.
Import Models Encryption ProjectManager.

(** A sequence of calls none of which is an update. *)
Definition no_update (cs : list call) : Prop :=
  Forall (fun c => match c with Update _ _ => False | _ => True end) cs.
End RepositoryNotions.

(** * Properties *)

(** ** Slug derivation *)

Module SlugFacts.
Import Slug.

Lemma slug_char_lower c : slug_char c = true -> lower_char c = c.
Proof.
  destruct c as [[] [] [] [] [] [] [] []]; vm_compute; congruence.
Qed.

Lemma slug_char_not_space c : slug_char c = true -> Ascii.eqb c " " = false.
Proof.
  destruct c as [[] [] [] [] [] [] [] []]; vm_compute; congruence.
Qed.


Lemma lower_fixed s : Forall (fun c => slug_char c = true) s -> lower s = s.
Proof.
  induction 1 as [|c s Hc _ IH]; simpl; [done|].
  by rewrite slug_char_lower, IH.
Qed.

Lemma replace_space_fixed s :
  Forall (fun c => slug_char c = true) s -> replace " " "-" s = s.
Proof.
  induction 1 as [|c s Hc _ IH]; simpl; [done|].
  by rewrite slug_char_not_space, IH.
Qed.


Lemma remove_special_all s : Forall (fun c => slug_char c = true) (remove_special s).
Proof. unfold remove_special. apply Forall_forall. intros c Hc. by apply list_elem_of_filter in Hc as [? _]. Qed.

Lemma remove_special_fixed s :
  Forall (fun c => slug_char c = true) s -> remove_special s = s.
Proof.
  unfold remove_special. induction 1 as [|c s Hc _ IH]; [done|].
  rewrite filter_cons_True by done. by rewrite IH.
Qed.

Lemma is_hyphen_eq c : is_hyphen c = true -> c = "-"%char.
Proof. unfold is_hyphen. by intros ?%Ascii.eqb_eq. Qed.

Lemma collapse_head c t : exists r, collapse_hyphens (c :: t) = c :: r.
Proof.
  revert c. induction t as [|c' t IH]; intros c; [by exists []|].
  change (collapse_hyphens (c :: c' :: t))
    with (if is_hyphen c && is_hyphen c' then collapse_hyphens (c' :: t)
          else c :: collapse_hyphens (c' :: t)).
  destruct (is_hyphen c && is_hyphen c') eqn:E; [|eauto].
  apply andb_true_iff in E as [->%is_hyphen_eq ->%is_hyphen_eq]. apply IH.
Qed.

Lemma collapse_all (P : ascii -> Prop) s : Forall P s -> Forall P (collapse_hyphens s).
Proof.
  induction 1 as [|c s Hc Hs IH]; [constructor|].
  destruct s as [|c' t]; [by repeat constructor|].
  change (collapse_hyphens (c :: c' :: t))
    with (if is_hyphen c && is_hyphen c' then collapse_hyphens (c' :: t)
          else c :: collapse_hyphens (c' :: t)).
  destruct (is_hyphen c && is_hyphen c'); [done | by constructor].
Qed.

Lemma collapse_no_double s : no_double_hyphen (collapse_hyphens s) = true.
Proof.
  induction s as [|c s IH]; [done|].
  destruct s as [|c' t]; [done|].
  change (collapse_hyphens (c :: c' :: t))
    with (if is_hyphen c && is_hyphen c' then collapse_hyphens (c' :: t)
          else c :: collapse_hyphens (c' :: t)).
  destruct (is_hyphen c && is_hyphen c') eqn:E; [done|].
  destruct (collapse_head c' t) as [r Hr]. rewrite Hr in IH |- *.
  change (no_double_hyphen (c :: c' :: r))
    with (negb (is_hyphen c && is_hyphen c') && no_double_hyphen (c' :: r)).
  by rewrite E, IH.
Qed.

Lemma collapse_fixed s : no_double_hyphen s = true -> collapse_hyphens s = s.
Proof.
  induction s as [|c s IH]; [done|].
  destruct s as [|c' t]; [done|]. intros H.
  change (no_double_hyphen (c :: c' :: t))
    with (negb (is_hyphen c && is_hyphen c') && no_double_hyphen (c' :: t)) in H.
  apply andb_true_iff in H as [H1 H2]. apply negb_true_iff in H1.
  change (collapse_hyphens (c :: c' :: t))
    with (if is_hyphen c && is_hyphen c' then collapse_hyphens (c' :: t)
          else c :: collapse_hyphens (c' :: t)).
  by rewrite H1, IH.
Qed.

Lemma no_double_tail c s : no_double_hyphen (c :: s) = true -> no_double_hyphen s = true.
Proof. destruct s; [done|]. simpl. by intros [_ ?]%andb_true_iff. Qed.

Lemma lstrip_all (P : ascii -> Prop) s : Forall P s -> Forall P (lstrip s).
Proof.
  induction 1 as [|c s Hc Hs IH]; [constructor|].
  simpl. destruct (is_hyphen c); [done | by constructor].
Qed.

Lemma lstrip_no_double s : no_double_hyphen s = true -> no_double_hyphen (lstrip s) = true.
Proof.
  induction s as [|c s IH]; [done|]. intros H.
  simpl lstrip. destruct (is_hyphen c); [|done].
  apply IH. by apply no_double_tail in H.
Qed.

Lemma lstrip_starts_clean s : starts_clean (lstrip s) = true.
Proof.
  induction s as [|c s IH]; [done|].
  simpl. destruct (is_hyphen c) eqn:E; [done|]. simpl. by rewrite E.
Qed.

Lemma lstrip_fixed s : starts_clean s = true -> lstrip s = s.
Proof. destruct s as [|c s]; [done|]. simpl. by intros ->%negb_true_iff. Qed.

Lemma rstrip_cons c s :
  rstrip (c :: s) = match rstrip s with
                    | [] => if is_hyphen c then [] else [c]
                    | _ :: _ => c :: rstrip s
                    end.
Proof. simpl. by destruct (rstrip s). Qed.

Lemma rstrip_all (P : ascii -> Prop) s : Forall P s -> Forall P (rstrip s).
Proof.
  induction 1 as [|c s Hc Hs IH]; [constructor|].
  rewrite rstrip_cons. destruct (rstrip s); [|by constructor].
  destruct (is_hyphen c); by repeat constructor.
Qed.

Lemma rstrip_head c s c' r : rstrip (c :: s) = c' :: r -> c' = c.
Proof.
  rewrite rstrip_cons. destruct (rstrip s); [|congruence].
  destruct (is_hyphen c); congruence.
Qed.

Lemma rstrip_no_double s : no_double_hyphen s = true -> no_double_hyphen (rstrip s) = true.
Proof.
  induction s as [|c s IH]; [done|]. intros H.
  rewrite rstrip_cons. destruct (rstrip s) as [|c' r] eqn:E.
  { by destruct (is_hyphen c). }
  destruct s as [|c0 t]; [done|].
  apply rstrip_head in E as Hc. subst c'.
  change (no_double_hyphen (c :: c0 :: t))
    with (negb (is_hyphen c && is_hyphen c0) && no_double_hyphen (c0 :: t)) in H.
  apply andb_true_iff in H as [H1 H2].
  change (no_double_hyphen (c :: c0 :: r))
    with (negb (is_hyphen c && is_hyphen c0) && no_double_hyphen (c0 :: r)).
  by rewrite H1, IH.
Qed.

Lemma rstrip_starts_clean s : starts_clean s = true -> starts_clean (rstrip s) = true.
Proof.
  destruct s as [|c s]; [done|]. simpl starts_clean at 1. intros H.
  rewrite rstrip_cons. destruct (rstrip s); [|done].
  apply negb_true_iff in H. by rewrite H; simpl; rewrite H.
Qed.

Lemma rstrip_ends_clean s : ends_clean (rstrip s) = true.
Proof.
  unfold ends_clean. induction s as [|c s IH]; [done|].
  rewrite rstrip_cons. destruct (rstrip s) as [|c' r].
  - destruct (is_hyphen c) eqn:E; [done|]. simpl. by rewrite E.
  - by rewrite last_cons_cons.
Qed.

Lemma rstrip_fixed s : ends_clean s = true -> rstrip s = s.
Proof.
  unfold ends_clean. induction s as [|c s IH]; [done|]. intros H.
  rewrite rstrip_cons. destruct s as [|c' t].
  - simpl in *. by apply negb_true_iff in H as ->.
  - rewrite last_cons_cons in H. by rewrite (IH H).
Qed.

(** The output of [_create_slug] is in sanitised form. *)
Lemma create_slug_chars_clean k :
  let s := create_slug_chars k in
  Forall (fun c => slug_char c = true) s /\ no_double_hyphen s = true /\
  starts_clean s = true /\ ends_clean s = true.
Proof.
  unfold create_slug_chars, strip. repeat split.
  - apply rstrip_all, lstrip_all, collapse_all, remove_special_all.
  - apply rstrip_no_double, lstrip_no_double, collapse_no_double.
  - apply rstrip_starts_clean, lstrip_starts_clean.
  - apply rstrip_ends_clean.
Qed.







End SlugFacts.

(** ** Atomicity of a save *)

Module SaveFacts.
Import Models Encryption DataStorage StoreNotions.

Lemma save_step_inv target new s s' :
  save_inv target new s -> save_step new s s' -> save_inv target new s'.
Proof.
  intros Hinv Hstep. destruct Hstep as [e|n e|n e|e|e]; unfold save_inv in *; simpl in *.
  - done.
  - by destruct Hinv.
  - by destruct Hinv.
  - destruct Hinv as [_ Ht]. by destruct (projects_file e) eqn:E.
  - by destruct Hinv.
Qed.

Lemma save_reaches_inv target new e s :
  projects_file e = target ->
  save_reaches new (Encrypted, e) s -> save_inv target new s.
Proof.
  intros He. revert s. apply rtc_ind_r; [done|].
  intros s s' _ Hstep Hinv. by eapply save_step_inv.
Qed.

(** The document path never holds a partly written document: at every
    point of a save it is absent or holds the old or the new document. *)
Lemma save_target_never_partial old new e s :
  projects_file e = Some (Complete old) ->
  save_reaches new (Encrypted, e) s ->
  projects_file s.2 = None \/ old_or_new old new s.2.
Proof.
  intros He Hr. pose proof (save_reaches_inv _ _ _ _ He Hr) as Hinv.
  unfold save_inv, old_or_new in *. destruct (s.1); intuition congruence.
Qed.

(** [save_projects] is the run of these steps to the end. *)
Lemma save_projects_steps `{Fernet} projects e :
  writable e = true ->
  let '(data, r) := projects_data projects (draws e) in
  save_reaches (new_document data) (Encrypted, set_draws e r)
    (Renamed, (save_projects projects e).2) /\
  (save_projects projects e).1 = inr tt.
Proof.
  intros Hw. unfold save_projects. rewrite Hw. simpl.
  destruct (projects_data projects (draws e)) as [data r]. split; [|done].
  eapply rtc_l; [apply step_open|].
  eapply rtc_l; [apply step_close|].
  eapply rtc_l; [apply step_remove|].
  eapply rtc_l; [apply step_rename|].
  simpl. destruct (projects_file e); apply rtc_refl.
Qed.

(** C2: between [os.remove] and [os.rename] the document path holds
    neither document. From any directory whose document is complete, the
    save reaches a point where the path is absent, the new document sits
    only under the temporary name, and a load returns no project. *)
Theorem save_passes_through_missing_document `{Fernet} `{Clock} old new e :
  projects_file e = Some (Complete old) ->
  exists e',
    save_reaches new (Encrypted, e) (Removed, e') /\
    projects_file e' = None /\
    temp_file e' = Some (Complete new) /\
    ~ old_or_new old new e' /\
    (load_projects e').1 = [].
Proof.
  intros He.
  exists (set_files e None (Some (Complete new))). split.
  - eapply rtc_l; [apply step_open|].
    eapply rtc_l; [apply (step_close new 0)|].
    eapply rtc_l; [apply step_remove|]. simpl. rewrite He. apply rtc_refl.
  - split_and!; [done..| |done]. unfold old_or_new. simpl. intros [?|?]; discriminate.
Qed.

Lemma save_passes_through_missing_document_witness :
  exists e',
    save_reaches (new_document []) (Encrypted, Toy.damaged_directory) (Removed, e') /\
    projects_file e' = None /\
    temp_file e' = Some (Complete (new_document [])) /\
    ~ old_or_new (new_document Toy.damaged_data) (new_document []) e' /\
    (load_projects (H := Toy.toy_fernet) (H0 := Toy.toy_clock) e').1 = [].
Proof.
  exact (save_passes_through_missing_document (H := Toy.toy_fernet) (H0 := Toy.toy_clock)
           (new_document Toy.damaged_data) (new_document []) Toy.damaged_directory eq_refl).
Defined.

End SaveFacts.

(** ** Loading *)

Module LoadFacts.
Import Models Encryption DataStorage StoreNotions.

Ltac from_dict_inv Hd :=
  unfold from_dict in Hd;
  destruct (bool_decide (dom _ ⊆ list_to_set field_names)) eqn:?; [|done];
  repeat (match type of Hd with
          | context [?f ?d ?k ≫= _] => destruct (f d k) eqn:?; simpl in Hd; [|done]
          | context [?o ≫= _] => destruct o eqn:?; simpl in Hd; [|try done]
          end).

Section with_cipher.
Context `{Fernet} `{Clock}.

Lemma load_loop_loaded data acc t :
  load_loop data acc t = (acc ++ (loaded data t).1, (loaded data t).2).
Proof.
  revert acc t. induction data as [|d data IH]; intros acc t; simpl.
  { by rewrite app_nil_r. }
  destruct (load_one d t) as [[p t1]|]; [|apply IH].
  rewrite IH. destruct (loaded data t1) as [ps t2]. simpl.
  by rewrite <- app_assoc.
Qed.


Lemma init_ticks i n w u a c st k pt key ty cr up t :
  let r := __init__ i n w u a c st k pt key ty cr up t in
  (r.2 = S t \/ r.2 = S (S t)) /\ updated_at r.1 = isoformat_now (pred r.2) /\
  t < r.2.
Proof. destruct cr; simpl; split_and!; auto with lia. Qed.

Lemma from_dict_ticks d t p t' :
  from_dict d t = Some (p, t') ->
  (t' = S t \/ t' = S (S t)) /\ updated_at p = isoformat_now (pred t') /\ t < t'.
Proof.
  intros Hd. from_dict_inv Hd.
  match type of Hd with
  | Some (__init__ ?i ?n ?w ?u ?a ?c ?st ?k ?pt ?key ?ty ?cr ?up ?t) = _ =>
      pose proof (init_ticks i n w u a c st k pt key ty cr up t) as Hi
  end.
  simplify_eq. rewrite Hd in Hi. exact Hi.
Qed.



Lemma load_one_ticks d t p t' :
  load_one d t = Some (p, t') ->
  (t' = S t \/ t' = S (S t)) /\ updated_at p = isoformat_now (pred t') /\ t < t'.
Proof.
  unfold load_one. intros Hd.
  repeat (match type of Hd with
          | context [?o ≫= _] => destruct o eqn:?; simpl in Hd |- *; [|try done]
          end).
  by eapply from_dict_ticks.
Qed.



Lemma decrypt_encrypt s r :
  fernet_sound -> decrypt (VStr (encrypt s r).1) = Some s.
Proof.
  intros Hs. unfold encrypt, decrypt. simpl.
  destruct (String.eqb s "") eqn:E; simpl.
  - by apply String.eqb_eq in E as ->.
  - destruct (Hs r s) as [Hd Hne]. apply String.eqb_neq in Hne. by rewrite Hne.
Qed.

Lemma from_dict_to_dict p t :
  from_dict (to_dict p) t = Some (set_updated_at p (isoformat_now t), S t).
Proof. vm_compute. reflexivity. Qed.

Lemma reopened_dict p (c1 c2 : value) :
  <["ai_api_key" := VStr (ai_api_key p)]>
    (<["app_password" := VStr (app_password p)]>
       (<["ai_api_key" := c2]> (<["app_password" := c1]> (to_dict p))))
  = to_dict p.
Proof. vm_compute. reflexivity. Qed.

Lemma load_one_encrypted p r t :
  fernet_sound ->
  load_one (encrypted_dict p r).1 t = Some (set_updated_at p (isoformat_now t), S t).
Proof.
  intros Hs. unfold encrypted_dict.
  pose proof (decrypt_encrypt (app_password p) r Hs) as H1.
  destruct (encrypt (app_password p) r) as [c1 r1]. 
  pose proof (decrypt_encrypt (ai_api_key p) r1 Hs) as H2.
  destruct (encrypt (ai_api_key p) r1) as [c2 r2]. simpl in *.
  unfold load_one.
  rewrite lookup_insert_ne, lookup_insert_eq by done. simpl. rewrite H1. simpl.
  rewrite lookup_insert_ne, lookup_insert_eq by done. simpl. rewrite H2. simpl.
  rewrite reopened_dict. apply from_dict_to_dict.
Qed.

Lemma loaded_projects_data ps r t :
  fernet_sound ->
  loaded (projects_data ps r).1 t = (stamped ps t, t + length ps).
Proof.
  intros Hs. revert r t. induction ps as [|p ps IH]; intros r t; simpl.
  { by rewrite Nat.add_0_r. }
  pose proof (load_one_encrypted p r t Hs) as Hp.
  destruct (encrypted_dict p r) as [d r1]. simpl in Hp.
  specialize (IH r1 (S t)).
  destruct (projects_data ps r1) as [data r2]. simpl in *.
  rewrite Hp, IH. unfold stamped. simpl. rewrite Nat.add_0_r.
  f_equal; [|lia]. f_equal. apply imap_ext. intros i q _. simpl.
  by rewrite Nat.add_succ_r.
Qed.

Lemma save_then_load ps e :
  fernet_sound -> writable e = true ->
  (save_projects ps e).1 = inr tt /\
  (load_projects (save_projects ps e).2).1 = stamped ps (ticks e).
Proof.
  intros Hs Hw. unfold save_projects. rewrite Hw. simpl.
  pose proof (loaded_projects_data ps (draws e) (ticks e) Hs) as Hl.
  destruct (projects_data ps (draws e)) as [data r]. simpl in *.
  split; [done|].
  unfold load_projects.
  assert (Hf : forall e0, projects_file (rename_temp e0) = temp_file e0) by done.
  rewrite Hf.
  assert (Ht : forall e0, ticks (rename_temp e0) = ticks e0) by done.
  rewrite Ht.
  destruct (projects_file e); simpl; rewrite load_loop_loaded, Hl; done.
Qed.

Lemma imap_keywords (f : nat -> WordPressProject -> WordPressProject) ps :
  (forall i p, keywords (f i p) = keywords p) ->
  keywords <$> imap f ps = keywords <$> ps.
Proof.
  revert f. induction ps as [|p ps IH]; intros f Hf; [done|].
  rewrite imap_cons, !fmap_cons, Hf. f_equal. apply IH. intros i q. apply Hf.
Qed.

Lemma stamped_keywords ps t : keywords <$> stamped ps t = keywords <$> ps.
Proof. by apply imap_keywords. Qed.




Lemma init_created_at i n w u a c st k pt key ty cr up t :
  created_at (__init__ i n w u a c st k pt key ty (Some cr) up t).1 = cr.
Proof. reflexivity. Qed.






End with_cipher.
End LoadFacts.

(** ** Loading, round trips and timestamps *)

Module StoreTheorems.
Import Models Encryption DataStorage StoreNotions LoadFacts Toy.

Lemma toy_sound : fernet_sound.
Proof. intros r s. split; [done|]. simpl. discriminate. Qed.

Lemma toy_clock_inj : Inj (=) (=) (isoformat_now : nat -> string).
Proof.
  intros t t' Ht. unfold isoformat_now, toy_clock in Ht.
  apply pretty_nat_inj. by injection Ht.
Qed.

Section with_cipher.
Context `{Fernet} `{Clock}.


(** C8: with a sound cipher and a writable directory, a save succeeds and
    the load that follows returns, for every project and in the same
    order, the keyword sequence that was saved (every field, in fact,
    except [updated_at]). *)
Theorem keywords_survive_save_and_load ps e :
  fernet_sound -> writable e = true ->
  (save_projects ps e).1 = inr tt /\
  keywords <$> (load_projects (save_projects ps e).2).1 = keywords <$> ps /\
  (load_projects (save_projects ps e).2).1 = stamped ps (ticks e).
Proof.
  intros Hs Hw. destruct (save_then_load ps e Hs Hw) as [Hsave Hload].
  split_and!; [done| |done]. rewrite Hload. apply stamped_keywords.
Qed.


End with_cipher.


Lemma keywords_survive_save_and_load_witness :
  keywords <$> (load_projects (save_projects two_projects directory).2).1
  = [["k1"; "k2"]; ["k3"]].
Proof.
  exact (proj1 (proj2 (keywords_survive_save_and_load two_projects directory toy_sound eq_refl))).
Defined.


Example load_damaged :
  (load_projects damaged_directory).1
  = [set_updated_at (project "1" "a" ["k1"; "k2"]) "T5";
     set_updated_at (project "2" "b" ["k3"]) "T6"].
Proof. vm_compute. reflexivity. Qed.

End StoreTheorems.

(** ** The repository *)

Module RepositoryFacts.
Import Models Encryption DataStorage StoreNotions LoadFacts Toy ToyRepository ProjectManager StoreTheorems.

Section with_cipher.
Context `{Fernet}.

Lemma opened_encrypted p r :
  fernet_sound -> opened_dict (encrypted_dict p r).1 = Some (to_dict p).
Proof.
  intros Hs. unfold encrypted_dict.
  pose proof (decrypt_encrypt (app_password p) r Hs) as H1.
  destruct (encrypt (app_password p) r) as [c1 r1].
  pose proof (decrypt_encrypt (ai_api_key p) r1 Hs) as H2.
  destruct (encrypt (ai_api_key p) r1) as [c2 r2]. simpl in *.
  unfold opened_dict.
  rewrite lookup_insert_ne, lookup_insert_eq by done. simpl. rewrite H1. simpl.
  rewrite lookup_insert_ne, lookup_insert_eq by done. simpl. rewrite H2. simpl.
  by rewrite reopened_dict.
Qed.

Lemma opened_projects_data ps r :
  fernet_sound -> mapM opened_dict (projects_data ps r).1 = Some (to_dict <$> ps).
Proof.
  intros Hs. revert r. induction ps as [|p ps IH]; intros r; [done|].
  simpl. pose proof (opened_encrypted p r Hs) as Hp.
  destruct (encrypted_dict p r) as [d r1]. specialize (IH r1).
  destruct (projects_data ps r1) as [data r2]. simpl in *.
  by rewrite Hp, IH.
Qed.

(** A save that the repository reports as done leaves memory and
    document with the same contents. *)
Lemma save_projects_consistent pm :
  fernet_sound -> (save_projects pm).1 = true -> consistent (save_projects pm).2.
Proof.
  intros Hs. unfold save_projects, DataStorage.save_projects.
  destruct (writable (storage pm)); simpl; [|done]. intros _.
  pose proof (opened_projects_data (projects pm) (draws (storage pm)) Hs) as Ho.
  destruct (projects_data (projects pm) (draws (storage pm))) as [data r]. simpl in *.
  exists (new_document data). split; [|exact Ho].
  by destruct (projects_file (storage pm)).
Qed.

Lemma save_projects_keeps_projects pm : projects (save_projects pm).2 = projects pm.
Proof.
  unfold save_projects.
  by destruct (DataStorage.save_projects (projects pm) (storage pm)) as [[?|?] ?].
Qed.

Lemma save_projects_locked pm :
  writable (storage pm) = false -> save_projects pm = (false, pm).
Proof.
  intros Hw. unfold save_projects, DataStorage.save_projects. rewrite Hw. simpl.
  by destruct pm.
Qed.

(** [add_project] couples its answer to the save: it answers [True] only
    when the document was written. *)
Lemma add_project_consistent project pm :
  fernet_sound -> (add_project project pm).1 = Returns true ->
  consistent (add_project project pm).2.
Proof.
  intros Hs. unfold add_project. case_bool_decide; [done|].
  set (pm1 := {| storage := storage pm; projects := projects pm ++ [project] |}).
  pose proof (save_projects_consistent pm1 Hs) as Hc.
  destruct (save_projects pm1) as [[] pm2]; simpl in *; [auto|done].
Qed.

Lemma add_project_locked project pm :
  writable (storage pm) = false ->
  (add_project project pm).1 <> Returns true.
Proof.
  intros Hw. unfold add_project. case_bool_decide; [done|].
  rewrite save_projects_locked by done. done.
Qed.

(** [update_project] and [delete_project] drop the answer of the save. *)
Lemma update_project_locked project_id updated_project pm :
  writable (storage pm) = false ->
  is_Some (get_project project_id pm) ->
  exists i,
    update_project project_id updated_project pm
    = (Returns true,
       {| storage := storage pm;
          projects := <[i := set_id updated_project project_id]> (projects pm) |}).
Proof.
  intros Hw [p Hp]. unfold get_project in Hp. unfold update_project.
  destruct (list_find _ (projects pm)) as [[i q]|]; [|done].
  exists i. by rewrite save_projects_locked.
Qed.

Lemma delete_project_locked project_id pm :
  writable (storage pm) = false ->
  is_Some (get_project project_id pm) ->
  exists i,
    delete_project project_id pm
    = (Returns true, {| storage := storage pm; projects := delete i (projects pm) |}).
Proof.
  intros Hw [p Hp]. unfold get_project in Hp. unfold delete_project.
  destruct (list_find _ (projects pm)) as [[i q]|]; [|done].
  exists i. by rewrite save_projects_locked.
Qed.

(** Names: [add_project] and [delete_project] keep them distinct. *)
Lemma add_project_names project pm :
  NoDup (name <$> projects pm) -> NoDup (name <$> projects (add_project project pm).2).
Proof.
  intros Hnd. unfold add_project. case_bool_decide as Hex; [done|].
  set (pm1 := {| storage := storage pm; projects := projects pm ++ [project] |}).
  pose proof (save_projects_keeps_projects pm1) as Hk.
  destruct (save_projects pm1) as [[] pm2]; simpl in *; rewrite Hk;
    (rewrite fmap_app; apply NoDup_app; split_and!; [done| |apply NoDup_singleton];
     intros n [p [-> Hp]]%list_elem_of_fmap Hn%list_elem_of_singleton;
     apply Hex, Exists_exists; eauto).
Qed.

Lemma add_project_duplicate project pm :
  name project ∈ name <$> projects pm ->
  add_project project pm
  = (Raises (ValueError "Project with this name already exists"), pm).
Proof.
  intros [p [Hn Hp]]%list_elem_of_fmap. unfold add_project.
  rewrite bool_decide_true; [done|]. apply Exists_exists. eauto.
Qed.

Lemma delete_project_names project_id pm :
  NoDup (name <$> projects pm) ->
  NoDup (name <$> projects (delete_project project_id pm).2).
Proof.
  intros Hnd. unfold delete_project.
  destruct (list_find _ (projects pm)) as [[i q]|]; [|done].
  set (pm1 := {| storage := storage pm; projects := delete i (projects pm) |}).
  pose proof (save_projects_keeps_projects pm1) as Hk.
  destruct (save_projects pm1) as [b pm2]. simpl in Hk |- *. rewrite Hk.
  eapply sublist_NoDup; [exact Hnd|].
  apply fmap_sublist, sublist_delete.
Qed.

End with_cipher.

(** C1: on a repository whose directory has become read-only,
    [update_project] and [delete_project] change the collection in
    memory and answer [True] although nothing was written, so memory and
    document differ when the call returns; [add_project] on the same
    repository answers [False]. *)
Theorem update_and_delete_report_success_without_saving :
  consistent locked_repository /\
  (let r := update_project "1" (project "9" "renamed" ["k9"]) locked_repository in
   r.1 = Returns true /\
   storage r.2 = storage locked_repository /\
   projects r.2 = [project "1" "renamed" ["k9"]; project "2" "b" ["k3"]] /\
   ~ consistent r.2) /\
  (let r := delete_project "1" locked_repository in
   r.1 = Returns true /\
   storage r.2 = storage locked_repository /\
   projects r.2 = [project "2" "b" ["k3"]] /\
   ~ consistent r.2) /\
  (add_project (project "3" "c" []) locked_repository).1 = Returns false.
Proof.
  split; [|split; [|split]].
  - eexists. split; [reflexivity|]. vm_compute. reflexivity.
  - cbv zeta. split_and!; [reflexivity..|].
    intros (doc & Hdoc & Hm). injection Hdoc as <-.
    vm_compute in Hm. discriminate Hm.
  - cbv zeta. split_and!; [reflexivity..|].
    intros (doc & Hdoc & Hm). injection Hdoc as <-.
    vm_compute in Hm. discriminate Hm.
  - reflexivity.
Qed.

(** C4: [update_project] does not look at names. On a repository with
    the distinct names "a" and "b", replacing the second project by a
    record named "a" succeeds and leaves two projects named "a". *)
Theorem update_introduces_duplicate_name :
  NoDup (name <$> projects repository) /\
  (let r := update_project "2" (project "2" "a" ["k3"]) repository in
   r.1 = Returns true /\
   name <$> projects r.2 = ["a"; "a"] /\
   ~ NoDup (name <$> projects r.2)).
Proof.
  split.
  - simpl. apply NoDup_cons. split; [|apply NoDup_singleton].
    intros Hin%list_elem_of_singleton. discriminate.
  - cbv zeta. split_and!; [reflexivity..|].
    intros Hnd. vm_compute in Hnd. apply NoDup_cons in Hnd as [Hnd _].
    apply Hnd. left.
Qed.

End RepositoryFacts.

(** ** The publishing client *)

Module PublisherFacts.
Import Slug Models WordPressAPI ToyServices.

Section with_session.
Context `{Session World}.

(** C9, as the program has it: the publisher treats a response with
    status 201 whose body is a JSON object holding [id], [link] and [slug]
    as success, returning that identifier and link, and a response with
    any other status, the other 2xx statuses included, as a failure whose
    error message is "HTTP <status>: <body>". A success comes from status
    201 only. *)
Theorem publisher_status_201 website_url title content slug category_id status w
    response w' :
  session_post (website_url +:+ "/wp-json/wp/v2/posts")
    {| pd_title := title; pd_content := content; pd_slug := _sanitize_slug slug;
       pd_categories := [category_id]; pd_status := status |} w
  = (Responded response, w') ->
  let r := create_post website_url title content slug category_id status w in
  (status_code response <> 201%Z ->
   r = (Failure ("HTTP " +:+ pretty (status_code response) +:+ ": " +:+ text response), w')) /\
  (status_code response = 201%Z ->
   forall post_info post_id link slug',
     json response = inr post_info ->
     post_info !! "id" = Some post_id -> post_info !! "link" = Some link ->
     post_info !! "slug" = Some slug' ->
     r = (Created post_id link slug', w')) /\
  (wp_success r.1 = true -> status_code response = 201%Z).
Proof.
  intros Hpost r. subst r. unfold create_post. rewrite Hpost. split_and!.
  - intros Hs. by rewrite bool_decide_false.
  - intros Hs post_info post_id link slug' Hj Hi Hl Hsl.
    rewrite bool_decide_true by done. by rewrite Hj, Hi, Hl, Hsl.
  - case_bool_decide; [done|]. simpl. discriminate.
Qed.

End with_session.

Lemma publisher_status_201_witness :
  create_post (H := toy_session) "https://example.org" "t" "c" "s" 1 "draft" 0
  = (Created (VInt 7) (VStr "https://example.org/p") (VStr "s"), 0).
Proof.
  refine (proj1 (proj2 (publisher_status_201 (H := toy_session) "https://example.org"
            "t" "c" "s" 1 "draft" 0 _ 0 eq_refl)) eq_refl _ _ _ _ eq_refl _ _ _);
    reflexivity.
Defined.

(** C9 as stated fails: status 200 is a 2xx status, and [create_post]
    answers it with the failure "HTTP 200: done". *)
Lemma publisher_rejects_status_200 :
  is_2xx 200 = true /\
  create_post (H := ok_session) "https://example.org" "t" "c" "s" 1 "draft" tt
  = (Failure "HTTP 200: done", tt).
Proof. split; reflexivity. Qed.

End PublisherFacts.

(** ** The keyword pipeline *)

Module PipelineFacts.
Import Slug Models WordPressAPI ContentProcessor PipelineNotions ToyServices.

Section with_services.
Context `{Services World}.


(** What [process_single_keyword] answers, by the answers of the two
    collaborators. *)
Lemma process_single_keyword_result project k w :
  let r := (process_single_keyword project k w).1 in
  keyword r = k /\
  match generate_content (str_replace "<keyword>" k (prompt_template project))
          (time_time w).2 with
  | (inl e, _) => success r = false /\ error_message r = e /\ title r = ""
  | (inr (t, c), w1) =>
      title r = t /\
      match (create_post (rstrip_slash (website_url project)) t c (_create_slug k)
               (category_id project) (status project) w1).1 with
      | Created i u _ => success r = true /\ post_id r = i /\ post_url r = u
      | Failure e => success r = false /\ error_message r = e
      end
  end.
Proof.
  unfold process_single_keyword. destruct (time_time w) as [t0 w0]. simpl.
  destruct (generate_content _ w0) as [[e|[t c]] w1].
  - by destruct (time_time w1).
  - destruct (create_post _ t c _ _ _ w1) as [[i u sl|e] w2]; simpl;
      by destruct (time_time w2).
Qed.




End with_services.

(** Three keywords, generation fails on the second: three outcomes, the
    second failed, the first and the third published. *)
Example second_keyword_fails :
  (fun r => (keyword r, success r)) <$> (process_loop three_keywords None 3 0
     (keywords three_keywords) [] 0).1
  = [("k1", true); ("k2", false); ("k3", true)].
Proof. vm_compute. reflexivity. Qed.

End PipelineFacts.

(** ** The run window *)

Module WindowFacts.
Import Slug Models WordPressAPI ContentProcessor ProgressWindow WindowNotions ToyServices.

Section with_services.
Context `{Services World} `{Setup_ World}.

Lemma cancel_cancel (s : Window World) : cancel (cancel s) = cancel s.
Proof. done. Qed.

Lemma cancel_cancelled (s : Window World) : is_cancelled s = true -> cancel s = s.
Proof. destruct s as [p rs c w]. simpl. by intros ->. Qed.

Lemma in_flight_ignores_cancel project (s : Window World) :
  in_flight (at_point s) = true ->
  worker_step project (cancel s) = cancel <$> worker_step project s.
Proof.
  destruct s as [p rs c w]. unfold worker_step. simpl.
  destruct p as [ |i|i t0|i t0 t ct|i|i| |f]; try done; intros _; simpl.
  - destruct (keywords project !! i) as [k|]; [|done].
    destruct (generate_content _ w) as [[e|[t ct]] w1]; [|done].
    by destruct (time_time w1).
  - destruct (keywords project !! i) as [k|]; [|done].
    destruct (create_post _ _ _ _ _ _ w) as [[pi pu sl|e] w1];
      by destruct (time_time w1).
Qed.

Lemma finish_call_cancel project fuel (s : Window World) :
  finish_call project fuel (cancel s) = cancel (finish_call project fuel s).
Proof.
  revert s. induction fuel as [|fuel IH]; intros s; [done|].
  simpl. destruct (in_flight (at_point s)) eqn:E; [|done].
  rewrite in_flight_ignores_cancel by done.
  destruct (worker_step project s) as [s'|]; simpl; [apply IH|done].
Qed.

(** From the top of an iteration that is not cancelled, the worker enters
    the call, and the call runs to its end: the outcome appended is the
    one [process_single_keyword] computes. *)
Lemma call_runs_to_completion project (s : Window World) i k :
  at_point s = LoopHead i -> is_cancelled s = false ->
  keywords project !! i = Some k ->
  exists s1,
    worker_step project s = Some s1 /\ in_flight (at_point s1) = true /\
    finish_call project 2 s1
    = record s (Recorded i) (process_single_keyword project k (world s)).1
        (process_single_keyword project k (world s)).2.
Proof.
  destruct s as [p rs c w]. simpl. intros -> -> Hk.
  unfold worker_step. simpl. rewrite Hk.
  unfold process_single_keyword.
  destruct (time_time w) as [t0 w0]. eexists. split; [done|]. split; [done|].
  simpl. unfold worker_step. simpl. rewrite Hk.
  destruct (generate_content _ w0) as [[e|[t ct]] w1].
  - by destruct (time_time w1).
  - simpl. unfold worker_step. simpl. rewrite Hk.
    destruct (create_post _ _ _ _ _ _ w1) as [[pi pu sl|e] w2];
      by destruct (time_time w2).
Qed.

Lemma run_reaches project fuel (s : Window World) :
  rtc (step project) s (run project fuel s).
Proof.
  revert s. induction fuel as [|fuel IH]; intros s; simpl; [apply rtc_refl|].
  destruct (worker_step project s) as [s'|] eqn:E; [|apply rtc_refl].
  eapply rtc_l; [by apply step_worker|apply IH].
Qed.

Lemma finish_call_reaches project fuel (s : Window World) :
  rtc (step project) s (finish_call project fuel s).
Proof.
  revert s. induction fuel as [|fuel IH]; intros s; simpl; [apply rtc_refl|].
  destruct (in_flight (at_point s)); [|apply rtc_refl].
  destruct (worker_step project s) as [s'|] eqn:E; [|apply rtc_refl].
  eapply rtc_l; [by apply step_worker|apply IH].
Qed.

Lemma winding_down_step project i (s0 s s' : Window World) :
  winding_down i s0 s -> step project s s' -> winding_down i s0 s'.
Proof.
  intros (Hc & Hr & Hp) Hstep. destruct Hstep as [s s' Hw|s].
  - destruct s as [p rs c w]. simpl in *. subst c rs.
    unfold worker_step in Hw. simpl in Hw.
    destruct Hp as [[-> ->]|[[-> ->]|[[-> ->]|[-> ->]]]]; simpl in Hw.
    + injection Hw as <-. split_and!; [done..|]. right. left. done.
    + destruct (keywords project !! S i); injection Hw as <-;
        (split_and!; [done..|]; right; right; left; done).
    + injection Hw as <-. split_and!; [done..|]. right. right. right. done.
    + done.
  - rewrite cancel_cancelled by done. done.
Qed.

Lemma winding_down_reaches project i (s0 s' : Window World) :
  at_point s0 = Sleeping i ->
  rtc (step project) (cancel s0) s' -> winding_down i s0 s'.
Proof.
  intros Hp. revert s'. apply rtc_ind_r.
  - split_and!; [done..|]. left. done.
  - intros s s' _ Hstep Hw. by eapply winding_down_step.
Qed.

Lemma cancelled_delay_ends project i (s0 : Window World) :
  at_point s0 = Sleeping i ->
  run project 3 (cancel s0)
  = {| at_point := Done Cancelled; results := results s0; is_cancelled := true;
       world := time_sleep 5 (world s0) |}.
Proof.
  destruct s0 as [p rs c w]. simpl. intros ->.
  unfold worker_step. simpl. by destruct (keywords project !! S i).
Qed.

(** C6: the worker reads the flag at the top of an iteration, after an
    outcome is recorded and past the loop, never while a call is in
    flight: a call to a collaborator running under a raised flag does
    what it does without it, and a call entered at an iteration that is
    not cancelled appends the outcome [process_single_keyword] computes.
    On a project with at least two keywords whose set-up succeeds, the
    run reaches the delay after the first outcome; cancelled there, every
    state it can reach has that one outcome and no other, it can only
    end as [Cancelled], and the worker does end so after three steps. *)
Theorem cancellation_at_iteration_boundary project w k0 k1 rest :
  keywords project = k0 :: k1 :: rest ->
  (new_processor project w).1 = true ->
  (forall s fuel, finish_call project fuel (cancel s) = cancel (finish_call project fuel s)) /\
  (forall s i k, at_point s = LoopHead i -> is_cancelled s = false ->
     keywords project !! i = Some k ->
     exists s1,
       worker_step project s = Some s1 /\ in_flight (at_point s1) = true /\
       finish_call project 2 s1
       = record s (Recorded i) (process_single_keyword project k (world s)).1
           (process_single_keyword project k (world s)).2) /\
  exists s0 r0,
    rtc (step project) (start w) s0 /\
    at_point s0 = Sleeping 0 /\ is_cancelled s0 = false /\ results s0 = [r0] /\
    keyword r0 = k0 /\
    (forall s', rtc (step project) (cancel s0) s' ->
       results s' = [r0] /\ forall final, at_point s' = Done final -> final = Cancelled) /\
    at_point (run project 3 (cancel s0)) = Done Cancelled /\
    results (run project 3 (cancel s0)) = [r0].
Proof.
  intros Hk Hsetup. split; [|split].
  - intros s fuel. apply finish_call_cancel.
  - intros s i k. apply call_runs_to_completion.
  - destruct (new_processor project w) as [b w1] eqn:Enew. simpl in Hsetup. subst b.
    set (s_head := move (start w) (LoopHead 0) w1).
    destruct (call_runs_to_completion project s_head 0 k0) as (s1 & Hs1 & Hfl & Hfin);
      [done|done|by rewrite Hk|].
    set (r0 := (process_single_keyword project k0 (world s_head)).1) in *.
    set (w2 := (process_single_keyword project k0 (world s_head)).2) in *.
    set (s_rec := record s_head (Recorded 0) r0 w2) in *.
    set (s0 := move s_rec (Sleeping 0) w2).
    exists s0, r0. split_and!; try done.
    + eapply rtc_l.
      { apply step_worker. unfold worker_step. simpl. by rewrite Enew. }
      eapply rtc_l; [apply step_worker, Hs1|].
      eapply rtc_trans; [apply (finish_call_reaches project 2)|].
      rewrite Hfin. eapply rtc_l; [|apply rtc_refl].
      apply step_worker. unfold worker_step. simpl. by rewrite Hk.
    + apply (PipelineFacts.process_single_keyword_result project k0 (world s_head)).
    + intros s' Hs'. apply (winding_down_reaches project 0 s0) in Hs'; [|done].
      destruct Hs' as (Hc & Hr & Hp). split; [done|].
      intros final Hf. rewrite Hf in Hp.
      destruct Hp as [[? _]|[[? _]|[[? _]|[? _]]]]; congruence.
    + by rewrite (cancelled_delay_ends project 0).
    + by rewrite (cancelled_delay_ends project 0).
Qed.

End with_services.

Lemma cancellation_at_iteration_boundary_witness :
  exists s0 r0,
    rtc (step three_keywords) (start 0) s0 /\
    at_point s0 = Sleeping 0 /\ is_cancelled s0 = false /\ results s0 = [r0] /\
    keyword r0 = "k1" /\
    (forall s', rtc (step three_keywords) (cancel s0) s' ->
       results s' = [r0] /\ forall final, at_point s' = Done final -> final = Cancelled) /\
    at_point (run three_keywords 3 (cancel s0)) = Done Cancelled /\
    results (run three_keywords 3 (cancel s0)) = [r0].
Proof.
  exact (proj2 (proj2 (cancellation_at_iteration_boundary three_keywords 0
                         "k1" "k2" ["k3"] eq_refl eq_refl))).
Defined.

End WindowFacts.

(** ** More on slugs *)

Module SlugExtras.
Import Slug SlugFacts SlugNotions.

Lemma no_double_take n s : no_double_hyphen s = true -> no_double_hyphen (take n s) = true.
Proof.
  revert n. induction s as [|c s IH]; intros n Hs; [by destruct n|].
  destruct n as [|n]; [done|]. destruct s as [|c' t]; [by destruct n|].
  change (no_double_hyphen (c :: c' :: t))
    with (negb (is_hyphen c && is_hyphen c') && no_double_hyphen (c' :: t)) in Hs.
  apply andb_true_iff in Hs as [H1 H2].
  destruct n as [|n]; [done|].
  change (take (S (S n)) (c :: c' :: t)) with (c :: take (S n) (c' :: t)).
  specialize (IH (S n) H2). change (take (S n) (c' :: t)) with (c' :: take n t) in *.
  change (no_double_hyphen (c :: c' :: take n t))
    with (negb (is_hyphen c && is_hyphen c') && no_double_hyphen (c' :: take n t)).
  by rewrite H1, IH.
Qed.

Lemma starts_clean_take n s : starts_clean s = true -> starts_clean (take n s) = true.
Proof. destruct s, n; done. Qed.

Lemma sanitize_slug_chars_shape s :
  let r := sanitize_slug_chars s in
  Forall (fun c => slug_char c = true) r /\ no_double_hyphen r = true /\
  starts_clean r = true /\ length r <= 50.
Proof.
  unfold sanitize_slug_chars, strip. split_and!.
  - apply Forall_take, rstrip_all, lstrip_all, collapse_all, remove_special_all.
  - apply no_double_take, rstrip_no_double, lstrip_no_double, collapse_no_double.
  - apply starts_clean_take, rstrip_starts_clean, lstrip_starts_clean.
  - rewrite length_take. lia.
Qed.

(** X1: whatever it is given, [_sanitize_slug] returns at most 50
    characters, all of them in [[a-z0-9-]], with no two hyphens in a row
    and no hyphen in front. *)
Theorem sanitize_slug_shape slug :
  let r := list_ascii_of_string (_sanitize_slug slug) in
  Forall (fun c => slug_char c = true) r /\ no_double_hyphen r = true /\
  starts_clean r = true /\ length r <= 50.
Proof.
  unfold _sanitize_slug. rewrite list_ascii_of_string_of_list_ascii.
  apply sanitize_slug_chars_shape.
Qed.

Lemma create_clean s :
  Forall (fun c => slug_char c = true) s -> no_double_hyphen s = true ->
  starts_clean s = true -> ends_clean s = true ->
  create_slug_chars s = s.
Proof.
  intros Hall Hnd Hs He. unfold create_slug_chars, strip.
  rewrite lower_fixed, replace_space_fixed by done.
  rewrite remove_special_fixed, collapse_fixed by done.
  by rewrite lstrip_fixed, rstrip_fixed.
Qed.

(** X2: [_create_slug] is idempotent, and its result is made of
    characters in [[a-z0-9-]] with no two hyphens in a row and no hyphen
    at either end. *)
Theorem create_slug_idempotent keyword :
  _create_slug (_create_slug keyword) = _create_slug keyword /\
  let r := list_ascii_of_string (_create_slug keyword) in
  Forall (fun c => slug_char c = true) r /\ no_double_hyphen r = true /\
  starts_clean r = true /\ ends_clean r = true.
Proof.
  unfold _create_slug. rewrite !list_ascii_of_string_of_list_ascii.
  destruct (create_slug_chars_clean (list_ascii_of_string keyword)) as (H1 & H2 & H3 & H4).
  split; [|done]. by rewrite create_clean.
Qed.

Lemma not_alnum_hyphen c :
  is_alnum c = false ->
  slug_char (if Ascii.eqb (lower_char c) " " then "-"%char else lower_char c) = true ->
  is_hyphen (if Ascii.eqb (lower_char c) " " then "-"%char else lower_char c) = true.
Proof.
  destruct c as [[] [] [] [] [] [] [] []]; vm_compute; congruence.
Qed.

Lemma lstrip_hyphens s : Forall (fun c => is_hyphen c = true) s -> lstrip s = [].
Proof. induction 1 as [|c s Hc _ IH]; [done|]. simpl. by rewrite Hc. Qed.

(** X3: a keyword without any ASCII letter or digit gets the empty slug,
    from the pipeline and after the publisher's sanitising. *)
Theorem create_slug_without_alnum keyword :
  Forall (fun c => is_alnum c = false) (list_ascii_of_string keyword) ->
  _create_slug keyword = "" /\ posted_slug keyword = "".
Proof.
  intros Hk.
  assert (H : _create_slug keyword = "").
  { unfold _create_slug, create_slug_chars, strip.
    rewrite lstrip_hyphens; [done|].
    apply collapse_all. unfold remove_special, replace, lower.
    apply Forall_forall. intros c [Hc Hin]%list_elem_of_filter.
    apply list_elem_of_fmap in Hin as [c1 [-> Hin]].
    apply list_elem_of_fmap in Hin as [c0 [-> Hin]].
    apply not_alnum_hyphen; [|done].
    rewrite Forall_forall in Hk. by apply Hk. }
  split; [done|]. unfold posted_slug. by rewrite H.
Qed.

Lemma create_slug_without_alnum_witness :
  _create_slug "?! _ -- #%" = "" /\ posted_slug "?! _ -- #%" = "".
Proof.
  apply create_slug_without_alnum. vm_compute.
  repeat (constructor; [reflexivity|]). constructor.
Defined.

End SlugExtras.

(** ** More on the store *)

Module StoreExtras.
Import Models Encryption DataStorage StoreNotions SaveFacts LoadFacts Toy ToySave.

Section with_cipher.
Context `{Fernet} `{Clock}.

(** X4: with a sound cipher, [decrypt] undoes [encrypt] on every string,
    the empty one included; the empty string is stored as the empty
    string and costs no token. *)
Theorem encrypt_decrypt_round_trip s r :
  fernet_sound ->
  decrypt (VStr (encrypt s r).1) = Some s /\
  (s = "" -> encrypt s r = ("", r)) /\
  (s <> "" -> encrypt s r = (token_encrypt r s, S r)).
Proof.
  intros Hs. split; [by apply decrypt_encrypt|]. unfold encrypt. simpl. split.
  - by intros ->.
  - intros Hne%String.eqb_neq. by rewrite Hne.
Qed.

(** X5: at every point of a save the document path holds what it held
    before the save, nothing, or the complete new document; the partly
    written text only ever sits under the temporary name. *)
Theorem save_never_exposes_partial_document new e s :
  save_reaches new (Encrypted, e) s ->
  (projects_file s.2 = projects_file e \/ projects_file s.2 = None \/
   projects_file s.2 = Some (Complete new)) /\
  (forall n, temp_file s.2 = Some (Partial new n) -> projects_file s.2 = projects_file e).
Proof.
  intros Hr. pose proof (save_reaches_inv (projects_file e) new e s eq_refl Hr) as Hinv.
  unfold save_inv in Hinv. destruct (s.1); split; intros; intuition congruence.
Qed.

(** X6: a save that runs to its end leaves the new document at the
    document path and nothing under the temporary name; [save_projects]
    is such a run when the directory is writable, and otherwise raises
    [PermissionError] and leaves the directory as it was. *)
Theorem save_projects_outcome projects e :
  (forall new e', save_reaches new (Encrypted, e) (Renamed, e') ->
     projects_file e' = Some (Complete new) /\ temp_file e' = None) /\
  if writable e then
    (save_projects projects e).1 = inr tt /\
    projects_file (save_projects projects e).2
    = Some (Complete (new_document (projects_data projects (draws e)).1)) /\
    temp_file (save_projects projects e).2 = None /\
    save_reaches (new_document (projects_data projects (draws e)).1)
      (Encrypted, set_draws e (projects_data projects (draws e)).2)
      (Renamed, (save_projects projects e).2)
  else save_projects projects e = (inl PermissionError, e).
Proof.
  split.
  - intros new e' Hr.
    apply (save_reaches_inv (projects_file e) new e _ eq_refl Hr).
  - destruct (writable e) eqn:Hw; [|unfold save_projects; by rewrite Hw].
    pose proof (save_projects_steps projects e Hw) as Hsteps.
    destruct (projects_data projects (draws e)) as [data r] eqn:Ed.
    destruct Hsteps as [Hreach Hok]. simpl.
    pose proof (save_reaches_inv _ _ _ _ eq_refl Hreach) as [Hf Ht].
    simpl in Hf, Ht. done.
Qed.

(** X7: a load writes nothing: it leaves both files, the write permission
    and the token count as they are and only reads the clock; it returns
    no more records than the document holds, and none when the document
    is missing or cut short. *)
Theorem load_projects_reads_only e :
  projects_file (load_projects e).2 = projects_file e /\
  temp_file (load_projects e).2 = temp_file e /\
  writable (load_projects e).2 = writable e /\
  draws (load_projects e).2 = draws e /\
  ticks e <= ticks (load_projects e).2 /\
  length (load_projects e).1
  <= match projects_file e with
     | Some (Complete doc) => length (projects doc)
     | _ => 0
     end.
Proof.
  unfold load_projects.
  destruct (projects_file e) as [[doc|doc n]|] eqn:He; simpl; try (split_and!; done).
  rewrite load_loop_loaded. simpl.
  assert (Hgen : forall data t,
            t <= (loaded data t).2 /\ length (loaded data t).1 <= length data).
  { clear. induction data as [|d data IH]; intros t; simpl; [done|].
    destruct (load_one d t) as [[p t1]|] eqn:E.
    - apply load_one_ticks in E as (_ & _ & Hlt).
      specialize (IH t1). destruct (loaded data t1) as [ps t2]. simpl in *. lia.
    - specialize (IH t). lia. }
  destruct (Hgen (projects doc) (ticks e)) as [Ht Hl].
  destruct (loaded (projects doc) (ticks e)) as [ps t]. simpl in *.
  split_and!; done.
Qed.

End with_cipher.

Lemma encrypt_decrypt_round_trip_witness :
  decrypt (VStr (encrypt "secret" 0).1) = Some "secret" /\
  ("secret" = "" -> encrypt "secret" 0 = ("", 0)) /\
  ("secret" <> "" -> encrypt "secret" 0 = (token_encrypt 0 "secret", 1)).
Proof. exact (encrypt_decrypt_round_trip "secret" 0 StoreTheorems.toy_sound). Defined.

Lemma save_never_exposes_partial_document_witness :
  (projects_file half_written.2 = projects_file damaged_directory \/
   projects_file half_written.2 = None \/
   projects_file half_written.2 = Some (Complete (new_document []))) /\
  (forall n, temp_file half_written.2 = Some (Partial (new_document []) n) ->
     projects_file half_written.2 = projects_file damaged_directory).
Proof.
  apply (save_never_exposes_partial_document (new_document []) damaged_directory).
  eapply rtc_l; [apply step_open|].
  eapply rtc_l; [apply step_write|]. apply rtc_refl.
Defined.

End StoreExtras.

(** ** More on the repository *)

Module RepositoryExtras.
Import Models Encryption DataStorage StoreNotions Toy ToyRepository ProjectManager
  RepositoryNotions RepositoryFacts.

(** X8: the lookups answer with the first record that matches, and with
    nothing exactly when no record matches. *)
Theorem lookups_find_first_match key pm :
  (forall p, get_project key pm = Some p <->
     exists i, projects pm !! i = Some p /\ id p = key /\
       forall j q, projects pm !! j = Some q -> j < i -> id q <> key) /\
  (get_project key pm = None <-> forall p, p ∈ projects pm -> id p <> key) /\
  (forall p, get_project_by_name key pm = Some p <->
     exists i, projects pm !! i = Some p /\ name p = key /\
       forall j q, projects pm !! j = Some q -> j < i -> name q <> key) /\
  (get_project_by_name key pm = None <-> forall p, p ∈ projects pm -> name p <> key).
Proof.
  unfold get_project, get_project_by_name. split_and!.
  - intros p. destruct (list_find _ (projects pm)) as [[i q]|] eqn:E; simpl.
    + apply list_find_Some in E as (Hi & Hq & Hfirst). split.
      * intros [= <-]. eauto.
      * intros (j & Hj & Hp & Hf). f_equal.
        destruct (Nat.lt_trichotomy i j) as [Hlt|[->|Hlt]].
        -- by destruct (Hf i q Hi Hlt).
        -- congruence.
        -- by destruct (Hfirst j p Hj Hlt).
    + apply list_find_None in E. split; [done|]. intros (j & Hj & Hp & _).
      rewrite Forall_forall in E. destruct (E p); [by eapply list_elem_of_lookup_2|done].
  - destruct (list_find _ (projects pm)) as [[i q]|] eqn:E; simpl.
    + apply list_find_Some in E as (Hi & Hq & _). split; [done|]. intros Hn.
      destruct (Hn q); [by eapply list_elem_of_lookup_2|done].
    + apply list_find_None in E. rewrite Forall_forall in E. split; [|done]. intros _. exact E.
  - intros p. destruct (list_find _ (projects pm)) as [[i q]|] eqn:E; simpl.
    + apply list_find_Some in E as (Hi & Hq & Hfirst). split.
      * intros [= <-]. eauto.
      * intros (j & Hj & Hp & Hf). f_equal.
        destruct (Nat.lt_trichotomy i j) as [Hlt|[->|Hlt]].
        -- by destruct (Hf i q Hi Hlt).
        -- congruence.
        -- by destruct (Hfirst j p Hj Hlt).
    + apply list_find_None in E. split; [done|]. intros (j & Hj & Hp & _).
      rewrite Forall_forall in E. destruct (E p); [by eapply list_elem_of_lookup_2|done].
  - destruct (list_find _ (projects pm)) as [[i q]|] eqn:E; simpl.
    + apply list_find_Some in E as (Hi & Hq & _). split; [done|]. intros Hn.
      destruct (Hn q); [by eapply list_elem_of_lookup_2|done].
    + apply list_find_None in E. rewrite Forall_forall in E. split; [|done]. intros _. exact E.
Qed.

Section with_cipher.
Context `{Fernet}.

Lemma save_projects_writable pm :
  writable (storage pm) = true -> (save_projects pm).1 = true.
Proof.
  intros Hw. unfold save_projects, DataStorage.save_projects. rewrite Hw. simpl.
  by destruct (projects_data (projects pm) (draws (storage pm))).
Qed.

Lemma fresh_name_not_exists project (l : list WordPressProject) :
  name project ∉ name <$> l -> ~ Exists (fun p => name p = name project) l.
Proof.
  intros Hn [p [Hp Hnp]]%Exists_exists. apply Hn, list_elem_of_fmap. eauto.
Qed.

(** X9: adding a project whose name is free appends it at the end, and
    the lookup by name finds it from then on, whether or not the save
    went through; when the directory is read-only the call answers
    [False] and the project is in memory all the same. *)
Theorem add_then_lookup project pm :
  name project ∉ name <$> projects pm ->
  let r := add_project project pm in
  (exists b, r.1 = Returns b) /\
  projects r.2 = projects pm ++ [project] /\
  get_project_by_name (name project) r.2 = Some project /\
  (writable (storage pm) = false ->
   r = (Returns false, {| storage := storage pm; projects := projects pm ++ [project] |})).
Proof.
  intros Hfresh r. subst r. unfold add_project.
  rewrite bool_decide_false by by apply fresh_name_not_exists.
  set (pm1 := {| storage := storage pm; projects := projects pm ++ [project] |}).
  pose proof (save_projects_keeps_projects pm1) as Hk.
  assert (Hlook : forall pm2, projects pm2 = projects pm ++ [project] ->
                    get_project_by_name (name project) pm2 = Some project).
  { intros pm2 Hp. unfold get_project_by_name. rewrite Hp.
    assert (Hf : list_find (fun p => name p = name project) (projects pm ++ [project])
                 = Some (length (projects pm), project)); [|by rewrite Hf].
    apply list_find_Some. split_and!.
    - by rewrite lookup_app_r, Nat.sub_diag.
    - done.
    - intros j q Hj Hlt Hq. rewrite lookup_app_l in Hj by done.
      apply Hfresh, list_elem_of_fmap. exists q. split; [done|].
      by eapply list_elem_of_lookup_2. }
  split_and!.
  - destruct (save_projects pm1) as [[] pm2]; eauto.
  - destruct (save_projects pm1) as [[] pm2]; exact Hk.
  - apply Hlook. destruct (save_projects pm1) as [[] pm2]; exact Hk.
  - intros Hw. by rewrite save_projects_locked.
Qed.

(** X10: deleting an id that is present answers [True] and takes out one
    record, the first with that id; every record with another id stays,
    in the same order; and when ids are pairwise distinct the id is not
    found afterwards. *)
Theorem delete_removes_the_record project_id pm :
  is_Some (get_project project_id pm) ->
  let r := delete_project project_id pm in
  r.1 = Returns true /\
  S (length (projects r.2)) = length (projects pm) /\
  projects r.2 `sublist_of` projects pm /\
  (forall p, p ∈ projects pm -> id p <> project_id -> p ∈ projects r.2) /\
  (NoDup (id <$> projects pm) -> get_project project_id r.2 = None).
Proof.
  intros [p0 Hp0] r. subst r. unfold get_project in *. unfold delete_project.
  destruct (list_find _ (projects pm)) as [[i q]|] eqn:E; [|done].
  apply list_find_Some in E as (Hi & Hq & Hfirst).
  set (pm1 := {| storage := storage pm; projects := delete i (projects pm) |}).
  pose proof (save_projects_keeps_projects pm1) as Hk.
  destruct (save_projects pm1) as [b pm2]. simpl in Hk |- *. rewrite Hk.
  split_and!.
  - done.
  - rewrite length_delete by eauto.
    apply lookup_lt_Some in Hi. lia.
  - apply sublist_delete.
  - intros p [j Hj]%list_elem_of_lookup_1 Hne.
    destruct (decide (j < i)) as [Hlt|Hge].
    + apply (list_elem_of_lookup_2 _ j). by rewrite list_lookup_delete_lt.
    + assert (j <> i) by (intros ->; congruence).
      apply (list_elem_of_lookup_2 _ (pred j)).
      rewrite list_lookup_delete_ge by lia. by replace (S (pred j)) with j by lia.
  - intros Hnd.
    assert (Hnone : list_find (fun project => id project = project_id)
                      (delete i (projects pm)) = None); [|by rewrite Hnone].
    apply list_find_None, Forall_forall. intros p [j Hj]%list_elem_of_lookup_1 Hp.
    assert (Hidx : forall k, projects pm !! k = Some p -> k = i).
    { intros k Hk'. apply (NoDup_lookup _ k i project_id Hnd);
        rewrite list_lookup_fmap; [by rewrite Hk'; simpl; rewrite Hp|by rewrite Hi; simpl; rewrite Hq]. }
    destruct (decide (j < i)) as [Hlt|Hge].
    + rewrite list_lookup_delete_lt in Hj by done. apply Hidx in Hj. lia.
    + rewrite list_lookup_delete_ge in Hj by lia. apply Hidx in Hj. lia.
Qed.

(** X11: updating an id that is present answers [True], keeps the length
    of the collection and the id at every position, and puts the new
    record, under the id asked for whatever id it came with, where the
    lookup by id finds it. *)
Theorem update_keeps_ids project_id updated_project pm :
  is_Some (get_project project_id pm) ->
  let r := update_project project_id updated_project pm in
  r.1 = Returns true /\
  length (projects r.2) = length (projects pm) /\
  id <$> projects r.2 = id <$> projects pm /\
  get_project project_id r.2 = Some (set_id updated_project project_id).
Proof.
  intros [p0 Hp0] r. subst r. unfold get_project in *. unfold update_project.
  destruct (list_find _ (projects pm)) as [[i q]|] eqn:E; [|done].
  apply list_find_Some in E as (Hi & Hq & Hfirst).
  set (u := set_id updated_project project_id).
  set (pm1 := {| storage := storage pm; projects := <[i := u]> (projects pm) |}).
  pose proof (save_projects_keeps_projects pm1) as Hk.
  destruct (save_projects pm1) as [b pm2]. simpl in Hk |- *. rewrite Hk.
  split_and!.
  - done.
  - apply length_insert.
  - rewrite list_fmap_insert. apply list_insert_id.
    rewrite list_lookup_fmap, Hi. simpl. by rewrite Hq.
  - assert (Hf : list_find (fun project => id project = project_id)
                   (<[i := u]> (projects pm)) = Some (i, u)); [|by rewrite Hf].
    apply list_find_Some. split_and!.
    + apply list_lookup_insert_eq. by eapply lookup_lt_Some.
    + done.
    + intros j y Hj Hlt. rewrite list_lookup_insert_ne in Hj by lia. by eapply Hfirst.
Qed.

(** X12: an update or a deletion of an id that is not in the collection
    raises "Project not found" and changes neither memory nor the
    directory. *)
Theorem unknown_id_changes_nothing project_id updated_project pm :
  get_project project_id pm = None ->
  update_project project_id updated_project pm
  = (Raises (ValueError "Project not found"), pm) /\
  delete_project project_id pm = (Raises (ValueError "Project not found"), pm).
Proof.
  unfold get_project, update_project, delete_project.
  by destruct (list_find _ (projects pm)) as [[i q]|].
Qed.

(** X13: additions and deletions, in any number and order, keep the
    names in the collection pairwise distinct. *)
Theorem add_and_delete_keep_names_distinct cs pm :
  no_update cs -> NoDup (name <$> projects pm) ->
  NoDup (name <$> projects (run_calls cs pm)).
Proof.
  intros Hcs. revert pm. induction Hcs as [|c cs Hc _ IH]; intros pm Hnd; [done|].
  simpl. apply IH. destruct c as [p|pid p|pid]; simpl.
  - by apply add_project_names.
  - done.
  - by apply delete_project_names.
Qed.

(** X14: on a writable directory and with a sound cipher, a call that
    answers [True] leaves the document with the contents of the
    collection in memory. *)
Theorem success_on_writable_is_consistent c pm :
  fernet_sound -> writable (storage pm) = true ->
  (run_call c pm).1 = Returns true -> consistent (run_call c pm).2.
Proof.
  intros Hs Hw. destruct c as [p|pid p|pid]; simpl.
  - by apply add_project_consistent.
  - unfold update_project.
    destruct (list_find _ (projects pm)) as [[i q]|]; [|done].
    set (pm1 := {| storage := storage pm; projects := <[i := set_id p pid]> (projects pm) |}).
    pose proof (save_projects_consistent pm1 Hs (save_projects_writable pm1 Hw)) as Hc.
    by destruct (save_projects pm1) as [b pm2].
  - unfold delete_project.
    destruct (list_find _ (projects pm)) as [[i q]|]; [|done].
    set (pm1 := {| storage := storage pm; projects := delete i (projects pm) |}).
    pose proof (save_projects_consistent pm1 Hs (save_projects_writable pm1 Hw)) as Hc.
    by destruct (save_projects pm1) as [b pm2].
Qed.

End with_cipher.

Lemma add_then_lookup_witness :
  get_project_by_name "c" (add_project (project "3" "c" []) repository).2
  = Some (project "3" "c" []).
Proof.
  refine (proj1 (proj2 (proj2 (add_then_lookup (project "3" "c" []) repository _)))).
  vm_compute. intros Hin. repeat (apply elem_of_cons in Hin as [Hin|Hin]; [discriminate|]).
  by apply elem_of_nil in Hin.
Defined.

Lemma delete_removes_the_record_witness :
  (delete_project "1" repository).1 = Returns true /\
  S (length (projects (delete_project "1" repository).2)) = length (projects repository).
Proof.
  pose proof (delete_removes_the_record "1" repository (mk_is_Some _ _ eq_refl)) as (H1 & H2 & _).
  exact (conj H1 H2).
Defined.

Lemma update_keeps_ids_witness :
  get_project "2" (update_project "2" (project "9" "z" []) repository).2
  = Some (set_id (project "9" "z" []) "2").
Proof.
  exact (proj2 (proj2 (proj2
    (update_keeps_ids "2" (project "9" "z" []) repository (mk_is_Some _ _ eq_refl))))).
Defined.

Lemma unknown_id_changes_nothing_witness :
  update_project "7" (project "7" "z" []) repository
  = (Raises (ValueError "Project not found"), repository) /\
  delete_project "7" repository = (Raises (ValueError "Project not found"), repository).
Proof. exact (unknown_id_changes_nothing "7" (project "7" "z" []) repository eq_refl). Defined.

Lemma add_and_delete_keep_names_distinct_witness :
  NoDup (name <$> projects (run_calls [Add (project "3" "c" []); Delete "1";
                                       Add (project "4" "c" [])] repository)).
Proof.
  apply add_and_delete_keep_names_distinct.
  - repeat constructor.
  - simpl. apply NoDup_cons. split; [|apply NoDup_singleton].
    intros Hin%list_elem_of_singleton. discriminate.
Defined.

Lemma success_on_writable_is_consistent_witness :
  consistent (run_call (Delete "1") repository).2.
Proof.
  exact (success_on_writable_is_consistent (Delete "1") repository
           StoreTheorems.toy_sound eq_refl eq_refl).
Defined.

End RepositoryExtras.
